(** * PBKDF2 with HMAC-SHA-1: the key derivation of crypto/pbkdf2.cc

    A shallow embedding of [hmac_sha1], [pkcs5_pbkdf2] and [pbkdf2], with
    the buffers of the C code as lists of bytes, its sizes and counters as
    integers with their wrap-around written out, and the scratch memory the
    functions leave behind as an explicit record.

    The target is LP64: [size_t] has 64 bits, [u_int] has 32. *)

From Stdlib Require Import ZArith Lia Strings.String Strings.Byte Init.Byte.
From stdpp Require Import base list.
From Equations Require Import Equations.

Open Scope Z_scope.

(** ** Bytes *)

Definition Z_of_byte (b : byte) : Z := Z.of_N (Byte.to_N b).

(** Conversion to [u_int8_t]: the low eight bits. *)
Definition u8 (z : Z) : byte :=
  match Byte.of_N (Z.to_N (z mod 256)) with
  | Some b => b
  | None => x00
  end.

(** [a ^ b] on [u_int8_t]. *)
Definition byte_xor (a b : byte) : byte :=
  u8 (Z.lxor (Z_of_byte a) (Z_of_byte b)).

Definition bytes_of_string (s : string) : list byte := list_byte_of_string s.

Definition hex_digit (n : Z) : string :=
  String.substring (Z.to_nat n) 1 "0123456789abcdef".

Definition hex_of_byte (b : byte) : string :=
  (hex_digit (Z_of_byte b / 16) ++ hex_digit (Z_of_byte b mod 16))%string.

(** Lower-case hexadecimal rendering of a buffer, two digits per byte. *)
Definition to_hex (l : list byte) : string :=
  foldr (fun b acc => (hex_of_byte b ++ acc)%string) EmptyString l.

(** ** C library memory primitives on buffers

    A buffer is the list of its bytes.  Each primitive is used by the code
    within the bounds of its destination; the definitions say what they
    yield there and keep the destination's length. *)

(** [bzero(buf, n)]. *)
Definition bzero (buf : list byte) (n : nat) : list byte :=
  replicate n x00 ++ drop n buf.

(** [memcpy(dst, src, n)]. *)
Definition memcpy (dst src : list byte) (n : nat) : list byte :=
  take n src ++ drop n dst.

(** [bcopy(src, dst, n)]: [memcpy] with the arguments swapped. *)
Definition bcopy (src dst : list byte) (n : nat) : list byte :=
  memcpy dst src n.

(** [memcpy(dst + off, src, n)], the write through an advanced pointer. *)
Definition memcpy_at (dst : list byte) (off : nat) (src : list byte) (n : nat)
  : list byte :=
  take off dst ++ take n src ++ drop (off + n) dst.

Definition all_zero (buf : list byte) : Prop := buf = replicate (length buf) x00.

Definition all_zerob (buf : list byte) : bool :=
  forallb (fun b => Z_of_byte b =? 0) buf.

(** ** SHA-1

    [SHA1_Init], [SHA1_Update] and [SHA1_Final] come from OpenSSL
    (openssl/sha.h), outside the repository.  [SHA1.digest] is the function
    they compute, FIPS 180-4 section 6.1, on the concatenation of the
    updates. *)

Module SHA1.

Definition w32 (x : Z) : Z := x mod 2 ^ 32.

Definition rotl (n x : Z) : Z :=
  w32 (Z.lor (Z.shiftl x n) (Z.shiftr x (32 - n))).

Definition f (t : nat) (b c d : Z) : Z :=
  if (t <? 20)%nat then Z.lor (Z.land b c) (Z.land (Z.lxor b 0xffffffff) d)
  else if (t <? 40)%nat then Z.lxor (Z.lxor b c) d
  else if (t <? 60)%nat then
    Z.lor (Z.lor (Z.land b c) (Z.land b d)) (Z.land c d)
  else Z.lxor (Z.lxor b c) d.

Definition K (t : nat) : Z :=
  if (t <? 20)%nat then 0x5a827999
  else if (t <? 40)%nat then 0x6ed9eba1
  else if (t <? 60)%nat then 0x8f1bbcdc
  else 0xca62c1d6.

Record state := { h0 : Z; h1 : Z; h2 : Z; h3 : Z; h4 : Z }.

Definition H0 : state :=
  {| h0 := 0x67452301; h1 := 0xefcdab89; h2 := 0x98badcfe;
     h3 := 0x10325476; h4 := 0xc3d2e1f0 |}.

(** Padding: a one bit, zeros up to 56 modulo 64, the bit length on 64 bits. *)
Definition be_bytes (n : nat) (x : Z) : list byte :=
  map (fun i => u8 (Z.shiftr x (8 * Z.of_nat i))) (rev (seq 0 n)).

Definition pad (m : list byte) : list byte :=
  let len := Z.of_nat (length m) in
  m ++ [x80] ++ replicate (Z.to_nat ((55 - len) mod 64)) x00
    ++ be_bytes 8 ((8 * len) mod 2 ^ 64).

Fixpoint words (l : list byte) : list Z :=
  match l with
  | a :: b :: c :: d :: r =>
      (Z_of_byte a * 2 ^ 24 + Z_of_byte b * 2 ^ 16
       + Z_of_byte c * 2 ^ 8 + Z_of_byte d) :: words r
  | _ => []
  end.

(** The message schedule, newest word first. *)
Fixpoint extend (n : nat) (w : list Z) : list Z :=
  match n with
  | O => w
  | S n' =>
      let x := Z.lxor (Z.lxor (nth 2 w 0) (nth 7 w 0))
                      (Z.lxor (nth 13 w 0) (nth 15 w 0)) in
      extend n' (rotl 1 x :: w)
  end.

Definition schedule (block : list byte) : list Z :=
  rev (extend 64 (rev (words block))).

Definition round (s : state) (tw : nat * Z) : state :=
  let (t, w) := tw in
  let tmp := w32 (rotl 5 (h0 s) + f t (h1 s) (h2 s) (h3 s) + h4 s + w + K t) in
  {| h0 := tmp; h1 := h0 s; h2 := rotl 30 (h1 s); h3 := h2 s; h4 := h3 s |}.

Definition compress (s : state) (block : list byte) : state :=
  let w := schedule block in
  let r := fold_left round (combine (seq 0 80) w) s in
  {| h0 := w32 (h0 s + h0 r); h1 := w32 (h1 s + h1 r);
     h2 := w32 (h2 s + h2 r); h3 := w32 (h3 s + h3 r);
     h4 := w32 (h4 s + h4 r) |}.

Fixpoint blocks (n : nat) (s : state) (l : list byte) : state :=
  match n with
  | O => s
  | S n' => blocks n' (compress s (take 64 l)) (drop 64 l)
  end.

Definition output (s : state) : list byte :=
  be_bytes 4 (h0 s) ++ be_bytes 4 (h1 s) ++ be_bytes 4 (h2 s)
    ++ be_bytes 4 (h3 s) ++ be_bytes 4 (h4 s).

Definition digest (m : list byte) : list byte :=
  let p := pad m in
  output (blocks (length p / 64) H0 p).

End SHA1.

(** ** The environment of the code

    [Hash] is the SHA-1 primitive as the code sees it: some function from
    messages to digests of [SHA1_DIGEST_LENGTH] bytes.  [Runtime] is the C
    run time: whether [malloc] of a given size returns a block, and the
    indeterminate bytes an uninitialised buffer holds, by name and size. *)

Definition SHA1_DIGEST_LENGTH : Z := 20.
Definition SHA1_BLOCK_LENGTH : Z := 64.
Definition SIZE_MAX : Z := 2 ^ 64 - 1.
Definition UINT_MAX : Z := 2 ^ 32 - 1.

(** Arithmetic on [size_t] and on [u_int] wraps. *)
Definition size_t (z : Z) : Z := z mod 2 ^ 64.
Definition u_int (z : Z) : Z := z mod 2 ^ 32.

Class Hash := {
  hash : list byte -> list byte;
  hash_length : forall m, length (hash m) = Z.to_nat SHA1_DIGEST_LENGTH
}.

Class Runtime := {
  malloc_ok : Z -> bool;
  uninit : string -> nat -> list byte;
  uninit_length : forall name n, length (uninit name n) = n
}.

(** OpenSSL's SHA-1. *)
Definition openssl_sha1 : Hash :=
  {| hash := SHA1.digest; hash_length := fun _ => eq_refl |}.

(** A run time where every allocation succeeds and fresh memory holds
    the byte [fill]. *)
Definition runtime_filled (fill : byte) : Runtime :=
  {| malloc_ok := fun _ => true;
     uninit := fun _ n => replicate n fill;
     uninit_length := fun _ n => length_replicate n fill |}.

(** A run time that is out of memory. *)
Definition runtime_oom : Runtime :=
  {| malloc_ok := fun _ => false;
     uninit := fun _ n => replicate n xff;
     uninit_length := fun _ n => length_replicate n xff |}.

(** The streaming interface: a context is the input consumed so far. *)
Definition SHA_CTX := list byte.
Definition SHA1_Init : SHA_CTX := [].
Definition SHA1_Update (ctx : SHA_CTX) (data : list byte) : SHA_CTX := ctx ++ data.
Definition SHA1_Final `{Hash} (ctx : SHA_CTX) : list byte := hash ctx.

(** ** hmac_sha1 *)

(** The two local arrays of [hmac_sha1], as the call leaves them. *)
Record hmac_locals := { hl_k_pad : list byte; hl_tk : list byte }.

(** [hmac_sha1(text, text_len, key, key_len, digest)].  [loc] is what the
    stack holds where [k_pad] and [tk] are placed.  The result is the
    20 bytes written to [digest] and the locals at the return. *)
Definition hmac_sha1 `{Hash} (loc : hmac_locals) (text key : list byte)
  : list byte * hmac_locals :=
  let k_pad := hl_k_pad loc in
  let tk := hl_tk loc in
  let key_len := Z.of_nat (length key) in
  let '(key, key_len, tk) :=
    if SHA1_BLOCK_LENGTH <? key_len then
      let ctx := SHA1_Init in
      let ctx := SHA1_Update ctx key in
      let tk := SHA1_Final ctx in
      (tk, SHA1_DIGEST_LENGTH, tk)
    else (key, key_len, tk) in
  let k_pad := bzero k_pad 64 in
  let k_pad := bcopy key k_pad (Z.to_nat key_len) in
  let k_pad := map (fun b => byte_xor b x36) k_pad in
  let ctx := SHA1_Init in
  let ctx := SHA1_Update ctx (take (Z.to_nat SHA1_BLOCK_LENGTH) k_pad) in
  let ctx := SHA1_Update ctx text in
  let digest := SHA1_Final ctx in
  let k_pad := bzero k_pad 64 in
  let k_pad := bcopy key k_pad (Z.to_nat key_len) in
  let k_pad := map (fun b => byte_xor b x5c) k_pad in
  let ctx := SHA1_Init in
  let ctx := SHA1_Update ctx (take (Z.to_nat SHA1_BLOCK_LENGTH) k_pad) in
  let ctx := SHA1_Update ctx (take (Z.to_nat SHA1_DIGEST_LENGTH) digest) in
  let digest := SHA1_Final ctx in
  (digest, {| hl_k_pad := k_pad; hl_tk := tk |}).

(** The digest alone, on a fresh stack. *)
Definition hmac_digest `{Hash} `{Runtime} (text key : list byte) : list byte :=
  fst (hmac_sha1 {| hl_k_pad := uninit "k_pad" 64; hl_tk := uninit "tk" 20 |}
         text key).

(** *** HMAC as RFC 2104 words it *)

Definition zero_pad (n : nat) (k : list byte) : list byte :=
  k ++ replicate (n - length k) x00.

Definition effective_key `{Hash} (key : list byte) : list byte :=
  if (64 <? length key)%nat then hash key else key.

Definition inner_pad `{Hash} (key : list byte) : list byte :=
  map (fun b => byte_xor b x36) (zero_pad 64 (effective_key key)).

Definition outer_pad `{Hash} (key : list byte) : list byte :=
  map (fun b => byte_xor b x5c) (zero_pad 64 (effective_key key)).

Definition HMAC_ref `{Hash} (message key : list byte) : list byte :=
  hash (outer_pad key ++ hash (inner_pad key ++ message)).

(** ** pkcs5_pbkdf2 *)

(** The scratch memory of one call: the heap block [asalt] (empty while
    nothing is allocated), the three local arrays, and the stack area
    where the frames of [hmac_sha1] live. *)
Record scratch := {
  sc_asalt : list byte;
  sc_obuf : list byte;
  sc_d1 : list byte;
  sc_d2 : list byte;
  sc_hmac : hmac_locals
}.

(** The variables the block loop changes.  [ls_off] is how far the
    pointer [key] has advanced into the caller's buffer [ls_key];
    [ls_key_len] is the length still to fill. *)
Record loop_state := {
  ls_mem : scratch;
  ls_count : Z;
  ls_key : list byte;
  ls_off : Z;
  ls_key_len : Z
}.

(** The four bytes of [count] the loop stores behind the salt. *)
Definition count_byte (count : Z) (shift : Z) : byte :=
  u8 (Z.land (Z.shiftr count shift) 0xff).

(** Body of [for (i = 1; i < rounds; i++)]. *)
Definition round_body `{Hash} (pass : list byte) (m : scratch) : scratch :=
  let '(d2, hl) :=
    hmac_sha1 (sc_hmac m) (take (Z.to_nat SHA1_DIGEST_LENGTH) (sc_d1 m)) pass in
  let d1 := memcpy (sc_d1 m) d2 (Z.to_nat SHA1_DIGEST_LENGTH) in
  let obuf := zip_with byte_xor (sc_obuf m) d1 in
  {| sc_asalt := sc_asalt m; sc_obuf := obuf; sc_d1 := d1; sc_d2 := d2;
     sc_hmac := hl |}.

(** The loop over [i]: [rounds - 1] passes through the body. *)
Definition rounds_loop `{Hash} (pass : list byte) (rounds : Z) (m : scratch)
  : scratch :=
  Nat.iter (Z.to_nat (rounds - 1)) (round_body pass) m.

(** Body of [for (count = 1; key_len > 0; count++)], increment included. *)
Definition block_body `{Hash} (pass : list byte) (salt_len rounds : Z)
    (st : loop_state) : loop_state :=
  let m := ls_mem st in
  let count := ls_count st in
  let asalt := sc_asalt m in
  let asalt := <[Z.to_nat (salt_len + 0) := count_byte count 24]> asalt in
  let asalt := <[Z.to_nat (salt_len + 1) := count_byte count 16]> asalt in
  let asalt := <[Z.to_nat (salt_len + 2) := count_byte count 8]> asalt in
  let asalt := <[Z.to_nat (salt_len + 3) := count_byte count 0]> asalt in
  let '(d1, hl) :=
    hmac_sha1 (sc_hmac m) (take (Z.to_nat (salt_len + 4)) asalt) pass in
  let obuf := memcpy (sc_obuf m) d1 (Z.to_nat SHA1_DIGEST_LENGTH) in
  let m := rounds_loop pass rounds
             {| sc_asalt := asalt; sc_obuf := obuf; sc_d1 := d1;
                sc_d2 := sc_d2 m; sc_hmac := hl |} in
  let r := Z.min (ls_key_len st) SHA1_DIGEST_LENGTH in
  let key := memcpy_at (ls_key st) (Z.to_nat (ls_off st)) (sc_obuf m)
               (Z.to_nat r) in
  {| ls_mem := m; ls_count := u_int (count + 1); ls_key := key;
     ls_off := ls_off st + r; ls_key_len := ls_key_len st - r |}.

(** The block loop, by well-founded recursion on the length still to fill. *)
Equations? block_loop `{Hash} (pass : list byte) (salt_len rounds : Z)
    (st : loop_state) : loop_state by wf (Z.to_nat (ls_key_len st)) lt :=
  block_loop pass salt_len rounds st with Z_lt_dec 0 (ls_key_len st) => {
    | left _ => block_loop pass salt_len rounds (block_body pass salt_len rounds st)
    | right _ => st }.
Proof.
  unfold block_body, SHA1_DIGEST_LENGTH.
  destruct (hmac_sha1 _ _ _) as [d1 hl]. cbn. lia.
Qed.

(** What a call of [pkcs5_pbkdf2] does: it returns [rc], leaving the
    caller's key buffer and its own scratch memory as given, or its
    [memcpy] of the salt runs past the end of the block it allocated. *)
Inductive pkcs5_outcome :=
| Returned (rc : Z) (key : list byte) (mem : scratch)
| HeapOverflow.

(** The stack on entry: nothing allocated, the arrays not yet written. *)
Definition entry_scratch `{Runtime} : scratch :=
  {| sc_asalt := [];
     sc_obuf := uninit "obuf" 20;
     sc_d1 := uninit "d1" 20;
     sc_d2 := uninit "d2" 20;
     sc_hmac := {| hl_k_pad := uninit "k_pad" 64; hl_tk := uninit "tk" 20 |} |}.

(** The two tests at the head of the function; [true] when they let
    the call proceed. *)
Definition params_ok (salt_len key_len rounds : Z) : bool :=
  if (rounds <? 1) || (key_len =? 0) then false
  else if (salt_len =? 0) || (SIZE_MAX - 1 <? salt_len) then false
  else true.

(** [pkcs5_pbkdf2(pass, pass_len, salt, salt_len, key, key_len, rounds)].
    Each pointer and its length are one list; [key] is the caller's
    buffer of [key_len] bytes. *)
Definition pkcs5_pbkdf2 `{Hash} `{Runtime} (pass salt key : list byte)
    (rounds : Z) : pkcs5_outcome :=
  let salt_len := Z.of_nat (length salt) in
  let key_len := Z.of_nat (length key) in
  if negb (params_ok salt_len key_len rounds) then
    Returned (-1) key entry_scratch
  else
    let size := size_t (salt_len + 4) in
    if negb (malloc_ok size) then Returned (-1) key entry_scratch
    else if size <? salt_len then HeapOverflow
    else
      let asalt := uninit "asalt" (Z.to_nat size) in
      let asalt := memcpy asalt salt (Z.to_nat salt_len) in
      let st := block_loop pass salt_len rounds
                  {| ls_mem :=
                       {| sc_asalt := asalt;
                          sc_obuf := sc_obuf entry_scratch;
                          sc_d1 := sc_d1 entry_scratch;
                          sc_d2 := sc_d2 entry_scratch;
                          sc_hmac := sc_hmac entry_scratch |};
                     ls_count := 1; ls_key := key; ls_off := 0;
                     ls_key_len := key_len |} in
      let m := ls_mem st in
      let asalt := bzero (sc_asalt m) (Z.to_nat (size_t (salt_len + 4))) in
      let d1 := bzero (sc_d1 m) 20 in
      let d2 := bzero (sc_d2 m) 20 in
      let obuf := bzero (sc_obuf m) 20 in
      Returned 0 (ls_key st)
        {| sc_asalt := asalt; sc_obuf := obuf; sc_d1 := d1; sc_d2 := d2;
           sc_hmac := sc_hmac m |}.

(** ** pbkdf2, the entry point *)

Inductive derivation :=
| Key (key : list byte)
| DerivationFailed
| Undefined.

(** Modelled from the spec: [throw_c] of util/errstream.hh is not among the
    sources.  By the spec a derivation ends with a key or with the one
    failure outcome, so [throw_c(cond)] raises that failure when [cond] is
    false and returns otherwise. *)
Definition throw_c (cond : bool) (k : derivation) : derivation :=
  if cond then k else DerivationFailed.

(** [pbkdf2(pass, salt, key_len, rounds)]: [key.resize(key_len)] gives the
    buffer of [key_len] zero bytes that [pkcs5_pbkdf2] fills. *)
Definition pbkdf2 `{Hash} `{Runtime} (pass salt : list byte)
    (key_len rounds : Z) : derivation :=
  let key := replicate (Z.to_nat key_len) x00 in
  match pkcs5_pbkdf2 pass salt key rounds with
  | Returned r key _ => throw_c (r =? 0) (Key key)
  | HeapOverflow => Undefined
  end.

(** ** PBKDF2 as RFC 2898 words it *)

(** [INT(i)]: the four bytes of the block index, most significant first. *)
Definition INT (i : Z) : list byte :=
  [u8 (i / 2 ^ 24); u8 (i / 2 ^ 16); u8 (i / 2 ^ 8); u8 i].

Definition xor_bytes (a b : list byte) : list byte := zip_with byte_xor a b.

(** [U pass salt i j] is U_j of block [i]; U_0 stands for the message
    [salt || INT(i)] that U_1 authenticates. *)
Fixpoint U `{Hash} (pass salt : list byte) (i : Z) (j : nat) : list byte :=
  match j with
  | O => salt ++ INT i
  | S j' => HMAC_ref (U pass salt i j') pass
  end.

(** [T_i = U_1 xor U_2 xor ... xor U_c]. *)
Definition T `{Hash} (pass salt : list byte) (c : nat) (i : Z) : list byte :=
  foldl xor_bytes (U pass salt i 1) (map (U pass salt i) (seq 2 (c - 1))).

(** [T_1 || T_2 || ... || T_l] cut to [dkLen] bytes, l the number of
    20-byte blocks that cover [dkLen]. *)
Definition PBKDF2_ref `{Hash} (pass salt : list byte) (c dkLen : Z)
  : list byte :=
  let l := Z.to_nat ((dkLen + 19) / 20) in
  take (Z.to_nat dkLen)
    (concat (map (fun i => T pass salt (Z.to_nat c) (Z.of_nat i)) (seq 1 l))).

(** ** Notions the statements use *)

(** The blocks the loop produces from counter value [count] on, [n] of
    them, with the counter wrapping as a [u_int]. *)
Fixpoint key_stream `{Hash} (pass salt : list byte) (rounds : Z) (count : Z)
    (n : nat) : list byte :=
  match n with
  | O => []
  | S n' => T pass salt (Z.to_nat rounds) count
              ++ key_stream pass salt rounds (u_int (count + 1)) n'
  end.

(** The shape of the scratch memory between two steps of the loops:
    [asalt] is the salt followed by four counter bytes and each array has
    its declared size. *)
Definition mem_inv (salt : list byte) (m : scratch) : Prop :=
  (exists ctr, sc_asalt m = salt ++ ctr /\ length ctr = 4%nat)
  /\ length (sc_obuf m) = 20%nat /\ length (sc_d1 m) = 20%nat
  /\ length (sc_d2 m) = 20%nat /\ length (hl_k_pad (sc_hmac m)) = 64%nat.

(** The locals of [hmac_sha1] after a call with key [pass], on a stack
    where [tk] held [tk0] before the first call. *)
Definition hmac_after `{Hash} (pass tk0 : list byte) : hmac_locals :=
  {| hl_k_pad := outer_pad pass;
     hl_tk := if (64 <? length pass)%nat then hash pass else tk0 |}.

(** The scratch memory a successful call leaves. *)
Definition scratch_after `{Hash} `{Runtime} (pass salt : list byte) : scratch :=
  {| sc_asalt := replicate (length salt + 4) x00;
     sc_obuf := replicate 20 x00;
     sc_d1 := replicate 20 x00;
     sc_d2 := replicate 20 x00;
     sc_hmac := hmac_after pass (uninit "tk" 20) |}.

(** No object, so no [std::string], is longer than [PTRDIFF_MAX] bytes. *)
Definition PTRDIFF_MAX : Z := 2 ^ 63 - 1.

(** Every buffer of the scratch memory holds zeros only. *)
Definition scrubbed (m : scratch) : Prop :=
  all_zero (sc_asalt m) /\ all_zero (sc_obuf m) /\ all_zero (sc_d1 m)
  /\ all_zero (sc_d2 m) /\ all_zero (hl_k_pad (sc_hmac m)).

(** The inputs of the first test vector of RFC 6070. *)
Definition kat_password : list byte := bytes_of_string "password".
Definition kat_salt : list byte := bytes_of_string "salt".

(** A state of the block loop with 45 bytes still to fill. *)
Definition kat_state : loop_state :=
  {| ls_mem := {| sc_asalt := kat_salt ++ replicate 4 xff;
                  sc_obuf := replicate 20 xff;
                  sc_d1 := replicate 20 xff;
                  sc_d2 := replicate 20 xff;
                  sc_hmac := {| hl_k_pad := replicate 64 xff;
                                hl_tk := replicate 20 xff |} |};
     ls_count := 1;
     ls_key := replicate 45 x00;
     ls_off := 0;
     ls_key_len := 45 |}.

(** * Properties *)

(** ** Test vectors of the primitives *)

Module SHA1Facts.

Lemma digest_length m : length (SHA1.digest m) = 20%nat.
Proof. reflexivity. Qed.

End SHA1Facts.

Example sha1_abc :
  to_hex (SHA1.digest (bytes_of_string "abc"))
  = "a9993e364706816aba3e25717850c26c9cd0d89d"%string.
Proof. vm_compute. reflexivity. Qed.

Example sha1_two_blocks :
  to_hex (SHA1.digest (bytes_of_string
    "abcdbcdecdefdefgefghfghighijhijkijkljklmklmnlmnomnopnopq"))
  = "84983e441c3bd26ebaae4aa1f95129e5e54670f1"%string.
Proof. vm_compute. reflexivity. Qed.

(** RFC 2202, test cases 2 (short key) and 6 (key longer than a block). *)
Example hmac_rfc2202_case2 :
  to_hex (@hmac_digest openssl_sha1 (runtime_filled xaa)
            (bytes_of_string "what do ya want for nothing?")
            (bytes_of_string "Jefe"))
  = "effcdf6ae5eb2fa2d27416d5f184df9c259a7c79"%string.
Proof. vm_compute. reflexivity. Qed.

Example hmac_rfc2202_case6 :
  to_hex (@hmac_digest openssl_sha1 (runtime_filled xaa)
            (bytes_of_string
               "Test Using Larger Than Block-Size Key - Hash Key First")
            (replicate 80 xaa))
  = "aa4ae5e15272d00e95705637ce8a3b55ed402112"%string.
Proof. vm_compute. reflexivity. Qed.

(** RFC 6070, test case 2 (two rounds), and a key of three blocks. *)
Example pbkdf2_rfc6070_case2 :
  match @pbkdf2 openssl_sha1 (runtime_filled xaa) kat_password kat_salt 20 2 with
  | Key key => to_hex key
  | _ => EmptyString
  end = "ea6c014dc72d6f8ccd1ed92ace1d41f0d8de8957"%string.
Proof. vm_compute. reflexivity. Qed.

Example pbkdf2_three_blocks :
  match @pbkdf2 openssl_sha1 (runtime_filled xaa) kat_password kat_salt 45 2 with
  | Key key => to_hex key
  | _ => EmptyString
  end = ("ea6c014dc72d6f8ccd1ed92ace1d41f0d8de8957"
         ++ "cae93136266537a8d7bf4b76c51094cc1ae010b1"
         ++ "9923ddc439")%string.
Proof. vm_compute. reflexivity. Qed.

(** ** Facts about the memory primitives *)

Lemma u8_mod z : u8 (z mod 256) = u8 z.
Proof. unfold u8. now rewrite Z.mod_mod. Qed.

Lemma length_bzero buf n : (n <= length buf)%nat -> length (bzero buf n) = length buf.
Proof.
  intros Hn. unfold bzero.
  rewrite length_app, length_replicate, length_drop. lia.
Qed.

Lemma bzero_all buf n : length buf = n -> bzero buf n = replicate n x00.
Proof.
  intros Hn. unfold bzero. rewrite drop_ge by lia. apply app_nil_r.
Qed.

Lemma memcpy_all dst src n :
  length src = n -> (length dst <= n)%nat -> memcpy dst src n = src.
Proof.
  intros Hs Hd. unfold memcpy.
  rewrite take_ge by lia. rewrite drop_ge by lia. apply app_nil_r.
Qed.

Lemma length_memcpy dst src n :
  (n <= length src)%nat -> (n <= length dst)%nat ->
  length (memcpy dst src n) = length dst.
Proof.
  intros Hs Hd. unfold memcpy.
  rewrite length_app, length_take, length_drop. lia.
Qed.

Lemma length_memcpy_at dst off src n :
  (n <= length src)%nat -> (off + n <= length dst)%nat ->
  length (memcpy_at dst off src n) = length dst.
Proof.
  intros Hs Hd. unfold memcpy_at.
  rewrite !length_app, !length_take, length_drop. lia.
Qed.

Lemma all_zerob_spec buf : all_zerob buf = true <-> all_zero buf.
Proof.
  unfold all_zero, all_zerob. induction buf as [|b buf IH]; cbn.
  - tauto.
  - rewrite andb_true_iff, IH. split.
    + intros [Hb Hr]. f_equal; [|exact Hr].
      destruct b; vm_compute in Hb; congruence.
    + intros Heq. injection Heq as Hb Hr. subst b. split; [reflexivity|exact Hr].
Qed.

(** The key block of HMAC: clearing [k_pad], copying the key in and
    masking it yields the masked zero-padded key, whatever [k_pad] held. *)
Lemma k_pad_block (mask : byte) (k_pad key : list byte) :
  (length key <= 64)%nat ->
  take 64 (map (fun b => byte_xor b mask)
             (bcopy key (bzero k_pad 64) (length key)))
  = map (fun b => byte_xor b mask) (zero_pad 64 key).
Proof.
  intros Hk. unfold bcopy, memcpy, bzero, zero_pad.
  rewrite firstn_all.
  rewrite drop_app_le by (rewrite length_replicate; lia).
  rewrite drop_replicate.
  rewrite !map_app, app_assoc.
  apply take_app_length'.
  rewrite length_app, !length_map, length_replicate. lia.
Qed.

Lemma k_pad_block_full (mask : byte) (k_pad key : list byte) :
  (length key <= 64)%nat -> length k_pad = 64%nat ->
  map (fun b => byte_xor b mask) (bcopy key (bzero k_pad 64) (length key))
  = map (fun b => byte_xor b mask) (zero_pad 64 key).
Proof.
  intros Hk Hp. rewrite <- k_pad_block with (k_pad := k_pad) by exact Hk.
  symmetry. apply take_ge.
  rewrite length_map. unfold bcopy.
  rewrite length_memcpy; rewrite ?length_bzero; lia.
Qed.


Lemma length_k_pad_fill (mask : byte) (k_pad key : list byte) :
  (length key <= 64)%nat -> length k_pad = 64%nat ->
  length (map (fun b => byte_xor b mask)
            (bcopy key (bzero k_pad 64) (length key))) = 64%nat.
Proof.
  intros Hk Hp. unfold bcopy, memcpy, bzero.
  rewrite length_map, length_app, length_take, length_drop, length_app,
    length_replicate, length_drop.
  lia.
Qed.

Section Engine.

Context {H : Hash}.

Lemma hash_length_20 m : length (hash m) = 20%nat.
Proof. apply hash_length. Qed.

Lemma effective_key_length key : (length (effective_key key) <= 64)%nat.
Proof.
  unfold effective_key. destruct (64 <? length key)%nat eqn:E.
  - rewrite hash_length_20. lia.
  - apply Nat.ltb_ge in E. exact E.
Qed.

Lemma hmac_sha1_digest loc text key :
  fst (hmac_sha1 loc text key) = HMAC_ref text key.
Proof.
  unfold hmac_sha1, HMAC_ref, inner_pad, outer_pad.
  pose proof (effective_key_length key) as Hlen.
  unfold effective_key in *.
  unfold SHA1_Final, SHA1_Update, SHA1_Init, SHA1_BLOCK_LENGTH,
    SHA1_DIGEST_LENGTH.
  change (Z.to_nat 64) with 64%nat.
  destruct (64 <? Z.of_nat (length key)) eqn:E.
  - apply Z.ltb_lt in E.
    assert (E' : (64 <? length key)%nat = true) by (apply Nat.ltb_lt; lia).
    rewrite E' in *. cbn [fst app].
    replace (Z.to_nat 20) with (length (hash key)) by apply hash_length_20.
    rewrite !k_pad_block by exact Hlen.
    now rewrite take_ge by (rewrite !hash_length_20; lia).
  - apply Z.ltb_ge in E.
    assert (E' : (64 <? length key)%nat = false) by (apply Nat.ltb_ge; lia).
    rewrite E' in *. cbn [fst app].
    rewrite Nat2Z.id.
    rewrite !k_pad_block by exact Hlen.
    now rewrite take_ge by (rewrite hash_length_20; cbn; lia).
Qed.

Lemma hmac_sha1_length loc text key :
  length (fst (hmac_sha1 loc text key)) = 20%nat.
Proof. rewrite hmac_sha1_digest. apply hash_length_20. Qed.

(** [k_pad] and [tk] as a call leaves them. *)
Lemma hmac_sha1_locals loc text key :
  length (hl_k_pad loc) = 64%nat ->
  snd (hmac_sha1 loc text key)
  = {| hl_k_pad := outer_pad key;
       hl_tk := if (64 <? length key)%nat then hash key else hl_tk loc |}.
Proof.
  intros Hp.
  unfold hmac_sha1, outer_pad.
  pose proof (effective_key_length key) as Hlen.
  unfold effective_key in *.
  unfold SHA1_Final, SHA1_Update, SHA1_Init, SHA1_BLOCK_LENGTH,
    SHA1_DIGEST_LENGTH.
  change (Z.to_nat 64) with 64%nat.
  destruct (64 <? Z.of_nat (length key)) eqn:E.
  - apply Z.ltb_lt in E.
    assert (E' : (64 <? length key)%nat = true) by (apply Nat.ltb_lt; lia).
    rewrite E' in *. cbn [snd].
    replace (Z.to_nat 20) with (length (hash key)) by apply hash_length_20.
    f_equal. apply k_pad_block_full; [exact Hlen|].
    now apply length_k_pad_fill.
  - apply Z.ltb_ge in E.
    assert (E' : (64 <? length key)%nat = false) by (apply Nat.ltb_ge; lia).
    rewrite E' in *. cbn [snd].
    rewrite Nat2Z.id.
    f_equal. apply k_pad_block_full; [exact Hlen|].
    now apply length_k_pad_fill.
Qed.

Lemma outer_pad_length key : length (outer_pad key) = 64%nat.
Proof.
  unfold outer_pad, zero_pad. pose proof (effective_key_length key).
  rewrite length_map, length_app, length_replicate. lia.
Qed.

End Engine.
(** ** The counter bytes *)

Lemma count_byte_div count k :
  0 <= k -> count_byte count k = u8 (count / 2 ^ k).
Proof.
  intros Hk. unfold count_byte.
  rewrite Z.shiftr_div_pow2 by exact Hk.
  change 0xff with (Z.ones 8). rewrite Z.land_ones by lia.
  apply u8_mod.
Qed.

Lemma count_bytes_INT count :
  [count_byte count 24; count_byte count 16; count_byte count 8;
   count_byte count 0] = INT count.
Proof.
  unfold INT. rewrite !count_byte_div by lia.
  now rewrite Z.pow_0_r, Z.div_1_r.
Qed.

(** Storing the four counter bytes behind the salt. *)
Lemma store_counter (salt ctr : list byte) (b0 b1 b2 b3 : byte) :
  length ctr = 4%nat ->
  let n := Z.of_nat (length salt) in
  <[Z.to_nat (n + 3) := b3]>
    (<[Z.to_nat (n + 2) := b2]>
       (<[Z.to_nat (n + 1) := b1]>
          (<[Z.to_nat (n + 0) := b0]> (salt ++ ctr))))
  = salt ++ [b0; b1; b2; b3].
Proof.
  intros Hc n. subst n.
  destruct ctr as [|c0 [|c1 [|c2 [|c3 [|? ?]]]]]; try discriminate.
  replace (Z.to_nat (Z.of_nat (length salt) + 0)) with (length salt + 0)%nat by lia.
  replace (Z.to_nat (Z.of_nat (length salt) + 1)) with (length salt + 1)%nat by lia.
  replace (Z.to_nat (Z.of_nat (length salt) + 2)) with (length salt + 2)%nat by lia.
  replace (Z.to_nat (Z.of_nat (length salt) + 3)) with (length salt + 3)%nat by lia.
  now rewrite !insert_app_r.
Qed.

Section Driver.

Context {H : Hash}.

#[local] Arguments U : simpl never.

Lemma hmac_sha1_eq loc text key :
  length (hl_k_pad loc) = 64%nat ->
  hmac_sha1 loc text key
  = (HMAC_ref text key,
     {| hl_k_pad := outer_pad key;
        hl_tk := if (64 <? length key)%nat then hash key else hl_tk loc |}).
Proof.
  intros Hp. rewrite (surjective_pairing (hmac_sha1 loc text key)).
  now rewrite hmac_sha1_digest, hmac_sha1_locals.
Qed.

Lemma HMAC_ref_length text key : length (HMAC_ref text key) = 20%nat.
Proof. apply hash_length_20. Qed.

Lemma U_length pass salt i j : length (U pass salt i (S j)) = 20%nat.
Proof. apply HMAC_ref_length. Qed.

Lemma xor_bytes_length a b :
  length a = 20%nat -> length b = 20%nat -> length (xor_bytes a b) = 20%nat.
Proof. intros Ha Hb. unfold xor_bytes. rewrite length_zip_with. lia. Qed.

Lemma xor_fold_length pass salt i a js :
  length a = 20%nat -> Forall (fun j => j <> O) js ->
  length (foldl xor_bytes a (map (U pass salt i) js)) = 20%nat.
Proof.
  intros Ha Hjs. revert a Ha.
  induction Hjs as [|j js Hj _ IH]; intros a Ha; cbn [map foldl].
  - exact Ha.
  - apply IH. apply xor_bytes_length; [exact Ha|].
    destruct j; [congruence|apply U_length].
Qed.

Lemma T_length pass salt c i : length (T pass salt c i) = 20%nat.
Proof.
  unfold T. apply xor_fold_length; [apply U_length|].
  apply Forall_forall. intros j Hj. apply elem_of_seq in Hj. lia.
Qed.

(** [n] passes of the inner loop, entered with U_1 in [d1] and [obuf]. *)
Lemma round_iter pass salt i n m :
  mem_inv salt m ->
  sc_d1 m = U pass salt i 1 -> sc_obuf m = U pass salt i 1 ->
  let m' := Nat.iter n (round_body pass) m in
  mem_inv salt m'
  /\ sc_asalt m' = sc_asalt m
  /\ sc_d1 m' = U pass salt i (S n)
  /\ sc_obuf m' = foldl xor_bytes (U pass salt i 1)
                    (map (U pass salt i) (seq 2 n)).
Proof.
  intros Hinv Hd1 Hobuf. induction n as [|n IH]; cbn zeta.
  - cbn [Nat.iter seq map foldl]. auto.
  - rewrite Nat.iter_succ. cbn zeta in IH.
    destruct IH as (Hinv' & Hs & Hd & Ho).
    set (mn := Nat.iter n (round_body pass) m) in *.
    destruct Hinv' as (Hctr & Lo & L1 & L2 & Lk).
    unfold round_body.
    rewrite hmac_sha1_eq by exact Lk.
    change (Z.to_nat SHA1_DIGEST_LENGTH) with 20%nat.
    rewrite (take_ge (sc_d1 mn)) by lia.
    rewrite memcpy_all by (rewrite ?HMAC_ref_length; lia).
    cbn [sc_asalt sc_obuf sc_d1 sc_d2 sc_hmac]. rewrite Hd.
    change (HMAC_ref (U pass salt i (S n)) pass) with (U pass salt i (S (S n))).
    repeat split.
    + rewrite Hs in Hctr |- *. exact Hctr.
    + cbn. fold xor_bytes. apply xor_bytes_length; [exact Lo|apply U_length].
    + apply U_length.
    + apply U_length.
    + cbn. apply outer_pad_length.
    + exact Hs.
    + rewrite seq_S, map_app, foldl_app. cbn [map foldl].
      rewrite <- Ho. reflexivity.
Qed.

End Driver.
Section Loop.

Context {H : Hash}.

#[local] Arguments U : simpl never.

(** One pass through the block loop. *)
Lemma block_body_spec pass salt rounds st :
  mem_inv salt (ls_mem st) ->
  let r := Z.min (ls_key_len st) 20 in
  let st' := block_body pass (Z.of_nat (length salt)) rounds st in
  mem_inv salt (ls_mem st')
  /\ ls_count st' = u_int (ls_count st + 1)
  /\ ls_key st' = memcpy_at (ls_key st) (Z.to_nat (ls_off st))
                    (T pass salt (Z.to_nat rounds) (ls_count st)) (Z.to_nat r)
  /\ ls_off st' = ls_off st + r
  /\ ls_key_len st' = ls_key_len st - r.
Proof.
  intros ((ctr & Ha & Hc) & Lo & L1 & L2 & Lk). cbn zeta.
  unfold block_body. rewrite Ha.
  rewrite (store_counter salt ctr) by exact Hc.
  rewrite count_bytes_INT.
  rewrite take_ge by (rewrite length_app; cbn; lia).
  rewrite hmac_sha1_eq by exact Lk.
  change (Z.to_nat SHA1_DIGEST_LENGTH) with 20%nat.
  rewrite memcpy_all by (rewrite ?HMAC_ref_length; lia).
  change (HMAC_ref (salt ++ INT (ls_count st)) pass)
    with (U pass salt (ls_count st) 1).
  unfold rounds_loop.
  match goal with |- context [Nat.iter ?n ?f ?m] =>
    destruct (round_iter pass salt (ls_count st) n m) as (Hinv & _ & _ & Ho)
  end.
  - repeat split; cbn; try assumption; try apply U_length.
    + exists (INT (ls_count st)). split; reflexivity.
    + apply outer_pad_length.
  - reflexivity.
  - reflexivity.
  - cbn zeta in Hinv, Ho.
    cbn [ls_mem ls_count ls_key ls_off ls_key_len].
    split; [exact Hinv|]. split; [reflexivity|].
    split; [|split; reflexivity].
    rewrite Ho. unfold T, SHA1_DIGEST_LENGTH.
    replace (Z.to_nat (rounds - 1)) with (Z.to_nat rounds - 1)%nat by lia.
    reflexivity.
Qed.

Lemma block_loop_step pass salt_len rounds st :
  0 < ls_key_len st ->
  block_loop pass salt_len rounds st
  = block_loop pass salt_len rounds (block_body pass salt_len rounds st).
Proof.
  intros Hk. rewrite block_loop_equation_1.
  destruct (Z_lt_dec 0 (ls_key_len st)); [reflexivity|contradiction].
Qed.

Lemma block_loop_exit pass salt_len rounds st :
  ls_key_len st <= 0 -> block_loop pass salt_len rounds st = st.
Proof.
  intros Hk. rewrite block_loop_equation_1.
  destruct (Z_lt_dec 0 (ls_key_len st)); [lia|reflexivity].
Qed.

End Loop.
Section LoopResult.

Context {H : Hash}.

Lemma key_stream_length pass salt rounds count n :
  length (key_stream pass salt rounds count n) = (20 * n)%nat.
Proof.
  revert count. induction n as [|n IH]; intros count; cbn [key_stream].
  - reflexivity.
  - rewrite length_app, T_length, IH. lia.
Qed.

(** Writing the first [r] bytes of a block behind [off] bytes already
    written continues the stream of blocks. *)
Lemma write_block (key blk rest : list byte) (off len : nat) :
  length blk = 20%nat -> length key = (off + len)%nat ->
  let r := (len `min` 20)%nat in
  let key' := memcpy_at key off blk r in
  take (off + r) key' ++ take (len - r) rest
  = take off key ++ take len (blk ++ rest).
Proof.
  intros Hb Hk r key'. subst key'. unfold memcpy_at.
  assert (Hlo : length (take off key) = off) by (rewrite length_take; lia).
  rewrite app_assoc, take_app_length'
    by (rewrite length_app, !length_take; lia).
  rewrite <- app_assoc. f_equal.
  destruct (Nat.le_gt_cases 20 len) as [Hge|Hlt].
  - replace r with 20%nat by lia.
    rewrite (take_ge blk) by lia.
    rewrite take_app_ge by lia. now rewrite Hb.
  - replace r with len by lia.
    rewrite Nat.sub_diag, take_0, app_nil_r.
    now rewrite take_app_le by lia.
Qed.

(** The loop fills what is left of the key buffer with the stream of
    blocks and stops with nothing left to fill. *)
Lemma block_loop_spec pass salt rounds n : forall st,
  mem_inv salt (ls_mem st) ->
  0 <= ls_key_len st <= 20 * Z.of_nat n ->
  0 <= ls_off st ->
  Z.of_nat (length (ls_key st)) = ls_off st + ls_key_len st ->
  let st' := block_loop pass (Z.of_nat (length salt)) rounds st in
  ls_key st' = take (Z.to_nat (ls_off st)) (ls_key st)
                 ++ take (Z.to_nat (ls_key_len st))
                      (key_stream pass salt rounds (ls_count st) n)
  /\ mem_inv salt (ls_mem st')
  /\ ls_key_len st' = 0.
Proof.
  induction n as [|n IH]; intros st Hinv Hlen Hoff Hkey; cbn zeta.
  - rewrite block_loop_exit by lia.
    replace (ls_key_len st) with 0 by lia.
    rewrite take_0, app_nil_r, take_ge by lia. auto.
  - destruct (Z_lt_dec 0 (ls_key_len st)) as [Hpos|Hz].
    + rewrite block_loop_step by exact Hpos.
      destruct (block_body_spec pass salt rounds st Hinv)
        as (Hinv' & Hc & Hk & Ho & Hl).
      set (st1 := block_body pass (Z.of_nat (length salt)) rounds st) in *.
      set (blk := T pass salt (Z.to_nat rounds) (ls_count st)) in *.
      assert (Hblk : length blk = 20%nat) by apply T_length.
      assert (Hk1 : length (ls_key st1) = length (ls_key st)).
      { rewrite Hk. apply length_memcpy_at; lia. }
      destruct (IH st1) as (Hres & Hinv'' & Hzero); try assumption; try lia.
      split; [|split; assumption].
      rewrite Hres. cbn [key_stream]. fold blk. rewrite Ho, Hl, Hc, Hk.
      replace (Z.to_nat (ls_off st + Z.min (ls_key_len st) 20))
        with (Z.to_nat (ls_off st)
              + (Z.to_nat (ls_key_len st) `min` 20))%nat by lia.
      replace (Z.to_nat (ls_key_len st - Z.min (ls_key_len st) 20))
        with (Z.to_nat (ls_key_len st)
              - (Z.to_nat (ls_key_len st) `min` 20))%nat by lia.
      replace (Z.to_nat (Z.min (ls_key_len st) 20))
        with (Z.to_nat (ls_key_len st) `min` 20)%nat by lia.
      apply write_block; [exact Hblk|lia].
    + rewrite block_loop_exit by lia.
      replace (ls_key_len st) with 0 by lia.
      rewrite take_0, app_nil_r, take_ge by lia. auto.
Qed.

(** The loop is the body run once per block: it ends, after as many
    passes as 20-byte blocks cover the key. *)
Lemma block_loop_iter pass salt_len rounds n : forall st,
  0 <= ls_key_len st ->
  n = Z.to_nat ((ls_key_len st + 19) / 20) ->
  block_loop pass salt_len rounds st
  = Nat.iter n (block_body pass salt_len rounds) st.
Proof.
  induction n as [|n IH]; intros st Hk Hn.
  - assert (ls_key_len st = 0).
    { destruct (Z.eq_dec (ls_key_len st) 0) as [|Hne]; [assumption|].
      assert (1 <= (ls_key_len st + 19) / 20)
        by (apply Z.div_le_lower_bound; lia).
      lia. }
    rewrite block_loop_exit by lia. reflexivity.
  - assert (Hpos : 0 < ls_key_len st).
    { destruct (Z_lt_dec 0 (ls_key_len st)) as [|Hz]; [assumption|].
      replace (ls_key_len st) with 0 in Hn by lia. discriminate Hn. }
    rewrite block_loop_step by exact Hpos.
    rewrite Nat.iter_succ_r. apply IH.
    + unfold block_body. destruct (hmac_sha1 _ _ _). cbn. unfold SHA1_DIGEST_LENGTH. lia.
    + unfold block_body. destruct (hmac_sha1 _ _ _). cbn. unfold SHA1_DIGEST_LENGTH.
      destruct (Z_le_gt_dec 20 (ls_key_len st)).
      * rewrite Z.min_r by lia.
        replace (ls_key_len st - 20 + 19) with (ls_key_len st + 19 + (-1) * 20) by lia.
        rewrite Z.div_add by lia. lia.
      * rewrite Z.min_l by lia.
        replace (ls_key_len st - ls_key_len st + 19) with 19 by lia.
        assert ((ls_key_len st + 19) / 20 = 1).
        { symmetry. apply Z.div_unique with (r := ls_key_len st - 1). all: lia. }
        assert (n = 0%nat) by lia. subst n. reflexivity.
Qed.

End LoopResult.
Section HmacFrame.

Context {H : Hash}.

(** What the calls of [hmac_sha1] leave on the stack. *)
Lemma hmac_sha1_after pass tk0 loc text :
  length (hl_k_pad loc) = 64%nat ->
  hl_tk loc = tk0 \/ loc = hmac_after pass tk0 ->
  snd (hmac_sha1 loc text pass) = hmac_after pass tk0.
Proof.
  intros Hp Htk. rewrite hmac_sha1_eq by exact Hp. cbn [snd].
  unfold hmac_after. f_equal.
  destruct Htk as [Htk|Htk]; rewrite Htk; [reflexivity|].
  cbn [hl_tk hmac_after]. now destruct (64 <? length pass)%nat.
Qed.

Lemma hmac_after_k_pad pass tk0 :
  length (hl_k_pad (hmac_after pass tk0)) = 64%nat.
Proof. apply outer_pad_length. Qed.

Lemma round_body_hmac pass tk0 m :
  sc_hmac m = hmac_after pass tk0 ->
  sc_hmac (round_body pass m) = hmac_after pass tk0.
Proof.
  intros Hm. unfold round_body.
  pose proof (hmac_sha1_after pass tk0 (sc_hmac m)
                (take (Z.to_nat SHA1_DIGEST_LENGTH) (sc_d1 m))) as Hs.
  destruct (hmac_sha1 _ _ _) as [d2 hl]. cbn [sc_hmac].
  apply Hs; [rewrite Hm; apply hmac_after_k_pad|now right].
Qed.

Lemma round_iter_hmac pass tk0 n m :
  sc_hmac m = hmac_after pass tk0 ->
  sc_hmac (Nat.iter n (round_body pass) m) = hmac_after pass tk0.
Proof.
  intros Hm. induction n as [|n IH]; [exact Hm|].
  rewrite Nat.iter_succ. now apply round_body_hmac.
Qed.

Lemma block_body_hmac pass salt_len rounds tk0 st :
  length (hl_k_pad (sc_hmac (ls_mem st))) = 64%nat ->
  hl_tk (sc_hmac (ls_mem st)) = tk0
  \/ sc_hmac (ls_mem st) = hmac_after pass tk0 ->
  sc_hmac (ls_mem (block_body pass salt_len rounds st)) = hmac_after pass tk0.
Proof.
  intros Hp Htk. unfold block_body.
  match goal with |- context [hmac_sha1 ?loc ?text pass] =>
    pose proof (hmac_sha1_after pass tk0 loc text Hp Htk) as Hs;
    destruct (hmac_sha1 loc text pass) as [d1 hl]
  end.
  cbn [ls_mem snd] in *. unfold rounds_loop.
  apply round_iter_hmac. exact Hs.
Qed.

Lemma block_loop_hmac pass salt rounds tk0 n : forall st,
  mem_inv salt (ls_mem st) ->
  0 < ls_key_len st <= 20 * Z.of_nat n ->
  hl_tk (sc_hmac (ls_mem st)) = tk0
  \/ sc_hmac (ls_mem st) = hmac_after pass tk0 ->
  sc_hmac (ls_mem (block_loop pass (Z.of_nat (length salt)) rounds st))
  = hmac_after pass tk0.
Proof.
  induction n as [|n IH]; intros st Hinv Hlen Htk; [lia|].
  rewrite block_loop_step by lia.
  destruct (block_body_spec pass salt rounds st Hinv)
    as (Hinv' & _ & _ & _ & Hl).
  assert (Hb := block_body_hmac pass (Z.of_nat (length salt)) rounds tk0 st).
  set (st1 := block_body pass (Z.of_nat (length salt)) rounds st) in *.
  destruct (Z_lt_dec 0 (ls_key_len st1)) as [Hpos|Hz].
  - apply IH; [exact Hinv'|lia|].
    right. apply Hb; [apply Hinv|exact Htk].
  - rewrite block_loop_exit by lia. apply Hb; [apply Hinv|exact Htk].
Qed.

End HmacFrame.

(** ** The driver as a whole *)

Lemma params_ok_true salt_len key_len rounds :
  params_ok salt_len key_len rounds = true
  <-> 1 <= rounds /\ key_len <> 0 /\ salt_len <> 0 /\ salt_len <= SIZE_MAX - 1.
Proof.
  unfold params_ok.
  destruct (rounds <? 1) eqn:E1, (key_len =? 0) eqn:E2,
    (salt_len =? 0) eqn:E3, (SIZE_MAX - 1 <? salt_len) eqn:E4; cbn;
    rewrite ?Z.ltb_lt, ?Z.ltb_ge, ?Z.eqb_eq, ?Z.eqb_neq in *;
    split; try discriminate; try lia; auto.
Qed.

Section Call.

Context {H : Hash} {R : Runtime}.

Lemma pkcs5_pbkdf2_rejects pass salt key rounds :
  params_ok (Z.of_nat (length salt)) (Z.of_nat (length key)) rounds = false ->
  pkcs5_pbkdf2 pass salt key rounds = Returned (-1) key entry_scratch.
Proof. intros Hp. unfold pkcs5_pbkdf2. now rewrite Hp. Qed.

Lemma pkcs5_pbkdf2_no_memory pass salt key rounds :
  params_ok (Z.of_nat (length salt)) (Z.of_nat (length key)) rounds = true ->
  malloc_ok (size_t (Z.of_nat (length salt) + 4)) = false ->
  pkcs5_pbkdf2 pass salt key rounds = Returned (-1) key entry_scratch.
Proof. intros Hp Hm. unfold pkcs5_pbkdf2. now rewrite Hp, Hm. Qed.

Lemma pkcs5_pbkdf2_overflow pass salt key rounds :
  params_ok (Z.of_nat (length salt)) (Z.of_nat (length key)) rounds = true ->
  malloc_ok (size_t (Z.of_nat (length salt) + 4)) = true ->
  SIZE_MAX - 4 < Z.of_nat (length salt) ->
  pkcs5_pbkdf2 pass salt key rounds = HeapOverflow.
Proof.
  intros Hp Hm Hs. unfold pkcs5_pbkdf2. rewrite Hp, Hm. cbn [negb].
  apply params_ok_true in Hp. unfold SIZE_MAX, size_t in *.
  assert (E : (Z.of_nat (length salt) + 4) mod 2 ^ 64
              = Z.of_nat (length salt) + 4 - 2 ^ 64).
  { symmetry. apply Z.mod_unique with (q := 1); lia. }
  rewrite E.
  destruct (Z.ltb_spec (Z.of_nat (length salt) + 4 - 2 ^ 64)
              (Z.of_nat (length salt))); [reflexivity|lia].
Qed.

(** A call with acceptable parameters, a salt that leaves room for the
    counter and a successful allocation: the key buffer receives the
    stream of blocks and the scratch memory is as [scratch_after] says. *)
Lemma pkcs5_pbkdf2_runs pass salt key rounds n :
  params_ok (Z.of_nat (length salt)) (Z.of_nat (length key)) rounds = true ->
  Z.of_nat (length salt) + 4 <= SIZE_MAX ->
  malloc_ok (Z.of_nat (length salt) + 4) = true ->
  (length key <= 20 * n)%nat ->
  pkcs5_pbkdf2 pass salt key rounds
  = Returned 0 (take (length key) (key_stream pass salt rounds 1 n))
      (scratch_after pass salt).
Proof.
  intros Hp Hfit Hm Hn. unfold pkcs5_pbkdf2. rewrite Hp. cbn [negb].
  apply params_ok_true in Hp. destruct Hp as (Hr & Hk & Hs & _).
  assert (E : size_t (Z.of_nat (length salt) + 4) = Z.of_nat (length salt) + 4).
  { unfold size_t. apply Z.mod_small. unfold SIZE_MAX in Hfit. lia. }
  rewrite E, Hm. cbn [negb].
  destruct (Z.ltb_spec (Z.of_nat (length salt) + 4) (Z.of_nat (length salt)));
    [lia|].
  set (st0 := {| ls_mem := _; ls_count := 1; ls_key := key; ls_off := 0;
                 ls_key_len := Z.of_nat (length key) |}).
  assert (Hinv : mem_inv salt (ls_mem st0)).
  { subst st0. unfold mem_inv, entry_scratch.
    cbn [ls_mem sc_asalt sc_obuf sc_d1 sc_d2 sc_hmac hl_k_pad].
    rewrite !uninit_length. repeat split; try reflexivity.
    exists (drop (length salt) (uninit "asalt" (Z.to_nat (Z.of_nat (length salt) + 4)))).
    unfold memcpy. rewrite Nat2Z.id, firstn_all. split; [reflexivity|].
    rewrite length_drop, uninit_length. lia. }
  destruct (block_loop_spec pass salt rounds n st0 Hinv)
    as (Hkey & Hinv' & Hz); cbn [st0 ls_key_len ls_off ls_key]; try lia.
  pose proof (block_loop_hmac pass salt rounds (uninit "tk" 20) n st0 Hinv)
    as Hh.
  set (st := block_loop pass (Z.of_nat (length salt)) rounds st0) in *.
  rewrite Hkey. cbn [st0 ls_key ls_off ls_key_len ls_count].
  rewrite take_0, app_nil_l, Nat2Z.id. f_equal.
  destruct Hinv' as ((ctr & Ha & Hc) & Lo & L1 & L2 & Lk).
  unfold scratch_after.
  replace (Z.to_nat (Z.of_nat (length salt) + 4)) with (length salt + 4)%nat
    by lia.
  f_equal.
  - apply bzero_all. rewrite Ha, length_app. lia.
  - now apply bzero_all.
  - now apply bzero_all.
  - now apply bzero_all.
  - apply Hh; [cbn [st0 ls_key_len]; lia|]. left. reflexivity.
Qed.

End Call.
Section Outcomes.

Context {H : Hash} {R : Runtime}.

(** The three ways a call can go. *)
Lemma pkcs5_pbkdf2_cases pass salt key rounds :
  let salt_len := Z.of_nat (length salt) in
  let ok := params_ok salt_len (Z.of_nat (length key)) rounds in
  (pkcs5_pbkdf2 pass salt key rounds = Returned (-1) key entry_scratch
   /\ (ok = false \/ malloc_ok (size_t (salt_len + 4)) = false))
  \/ (pkcs5_pbkdf2 pass salt key rounds = HeapOverflow
      /\ ok = true /\ malloc_ok (size_t (salt_len + 4)) = true
      /\ SIZE_MAX - 4 < salt_len)
  \/ (pkcs5_pbkdf2 pass salt key rounds
      = Returned 0 (take (length key) (key_stream pass salt rounds 1 (length key)))
          (scratch_after pass salt)
      /\ ok = true /\ malloc_ok (size_t (salt_len + 4)) = true
      /\ salt_len + 4 <= SIZE_MAX).
Proof.
  cbn zeta.
  destruct (params_ok _ _ rounds) eqn:Hp.
  - destruct (malloc_ok (size_t (Z.of_nat (length salt) + 4))) eqn:Hm.
    + destruct (Z_lt_dec (SIZE_MAX - 4) (Z.of_nat (length salt))) as [Hbig|Hfit].
      * right; left. split; [|auto]. now apply pkcs5_pbkdf2_overflow.
      * right; right. split; [|split; [reflexivity|split; [reflexivity|lia]]].
        apply pkcs5_pbkdf2_runs; [exact Hp|lia| |lia].
        unfold size_t in Hm. rewrite Z.mod_small in Hm; [exact Hm|].
        unfold SIZE_MAX in Hfit. lia.
    + left. split; [|auto]. now apply pkcs5_pbkdf2_no_memory.
  - left. split; [|auto]. now apply pkcs5_pbkdf2_rejects.
Qed.

(** The entry point on parameters the driver accepts. *)
Lemma pbkdf2_runs pass salt key_len rounds n :
  1 <= rounds -> 1 <= key_len -> salt <> [] ->
  Z.of_nat (length salt) + 4 <= SIZE_MAX ->
  malloc_ok (Z.of_nat (length salt) + 4) = true ->
  key_len <= 20 * Z.of_nat n ->
  pbkdf2 pass salt key_len rounds
  = Key (take (Z.to_nat key_len) (key_stream pass salt rounds 1 n)).
Proof.
  intros Hr Hk Hs Hfit Hm Hn. unfold pbkdf2.
  assert (Hlen : length (replicate (Z.to_nat key_len) x00) = Z.to_nat key_len)
    by apply length_replicate.
  rewrite (pkcs5_pbkdf2_runs pass salt _ rounds n); try assumption.
  - rewrite Hlen. reflexivity.
  - apply params_ok_true. rewrite Hlen.
    assert (length salt <> 0%nat) by (destruct salt; [congruence|discriminate]).
    unfold SIZE_MAX in *. lia.
  - rewrite Hlen. lia.
Qed.

End Outcomes.

(** ** The stream of blocks and the reference *)

Section Stream.

Context {H : Hash}.

Lemma key_stream_blocks pass salt rounds n : forall count,
  0 <= count -> count + Z.of_nat n <= 2 ^ 32 ->
  key_stream pass salt rounds count n
  = concat (map (fun i => T pass salt (Z.to_nat rounds) (Z.of_nat i))
              (seq (Z.to_nat count) n)).
Proof.
  induction n as [|n IH]; intros count Hc Hn; cbn [key_stream seq map concat].
  - reflexivity.
  - rewrite Z2Nat.id by exact Hc. f_equal.
    destruct n as [|n'].
    + reflexivity.
    + assert (E : u_int (count + 1) = count + 1)
        by (unfold u_int; apply Z.mod_small; lia).
      rewrite E, IH by lia.
      now replace (Z.to_nat (count + 1)) with (S (Z.to_nat count)) by lia.
Qed.

Lemma key_stream_ref pass salt rounds key_len :
  0 <= key_len <= UINT_MAX ->
  take (Z.to_nat key_len)
    (key_stream pass salt rounds 1 (Z.to_nat ((key_len + 19) / 20)))
  = PBKDF2_ref pass salt rounds key_len.
Proof.
  intros Hk. unfold PBKDF2_ref. cbn zeta.
  rewrite key_stream_blocks; [reflexivity|lia|].
  unfold UINT_MAX in Hk.
  assert ((key_len + 19) / 20 < 2 ^ 31)
    by (apply Z.div_lt_upper_bound; lia).
  assert (0 <= (key_len + 19) / 20) by (apply Z.div_pos; lia).
  lia.
Qed.

Lemma blocks_cover key_len :
  0 <= key_len -> key_len <= 20 * Z.of_nat (Z.to_nat ((key_len + 19) / 20)).
Proof.
  intros Hk.
  assert (0 <= (key_len + 19) / 20) by (apply Z.div_pos; lia).
  rewrite Z2Nat.id by assumption.
  pose proof (Z.mul_succ_div_gt (key_len + 19) 20). lia.
Qed.

End Stream.
Lemma params_ok_false salt_len key_len rounds :
  params_ok salt_len key_len rounds = false
  <-> rounds < 1 \/ key_len = 0 \/ salt_len = 0 \/ SIZE_MAX - 1 < salt_len.
Proof.
  destruct (params_ok salt_len key_len rounds) eqn:E.
  - apply params_ok_true in E. split; [discriminate|lia].
  - split; [intros _|reflexivity].
    destruct (Z_lt_dec rounds 1); [auto|].
    destruct (Z.eq_dec key_len 0); [auto|].
    destruct (Z.eq_dec salt_len 0); [auto|].
    destruct (Z_lt_dec (SIZE_MAX - 1) salt_len); [auto|].
    assert (params_ok salt_len key_len rounds = true)
      by (apply params_ok_true; lia).
    congruence.
Qed.

Lemma block_body_key_len `{Hash} pass salt_len rounds st :
  ls_key_len (block_body pass salt_len rounds st)
  = ls_key_len st - Z.min (ls_key_len st) SHA1_DIGEST_LENGTH.
Proof. unfold block_body. destruct (hmac_sha1 _ _ _). reflexivity. Qed.

Lemma block_loop_done `{Hash} pass salt_len rounds n : forall st,
  0 <= ls_key_len st <= 20 * Z.of_nat n ->
  ls_key_len (block_loop pass salt_len rounds st) = 0.
Proof.
  induction n as [|n IH]; intros st Hk.
  - rewrite block_loop_exit by lia. lia.
  - destruct (Z_lt_dec 0 (ls_key_len st)) as [Hpos|Hz].
    + rewrite block_loop_step by exact Hpos. apply IH.
      rewrite block_body_key_len. unfold SHA1_DIGEST_LENGTH. lia.
    + rewrite block_loop_exit by lia. lia.
Qed.

Section Derivation.

Context {H : Hash} {R : Runtime}.

(** C1. For every password, every non-empty salt that leaves room for the
    counter, every key length from 1 to [UINT_MAX] and every number of
    rounds from 1 on, a derivation whose allocation succeeds returns the
    PBKDF2 reference key: the blocks T_1, T_2, ... in a row, cut to
    [key_len] bytes, where T_i is the byte-wise xor of U_1 ... U_rounds,
    U_1 = HMAC(salt || INT(i), password), U_j = HMAC(U_(j-1), password)
    and INT(i) is the big-endian 32-bit block index. *)
Theorem pbkdf2_is_reference pass salt key_len rounds :
  salt <> [] ->
  Z.of_nat (length salt) + 4 <= SIZE_MAX ->
  1 <= key_len <= UINT_MAX ->
  1 <= rounds ->
  malloc_ok (Z.of_nat (length salt) + 4) = true ->
  pbkdf2 pass salt key_len rounds = Key (PBKDF2_ref pass salt rounds key_len).
Proof.
  intros Hs Hfit Hk Hr Hm.
  rewrite <- key_stream_ref by lia.
  apply pbkdf2_runs; try assumption; try lia.
  apply blocks_cover. lia.
Qed.

(** C2. For every message and every key, empty ones included, and
    whatever the stack held, [hmac_sha1] yields a digest, of 20 bytes,
    and it is hash(outer-pad || hash(inner-pad || message)): the pads are
    the effective key, zero-padded to 64 bytes, xored byte by byte with
    0x5c and 0x36, and the effective key is the hash of the key when the
    key is longer than 64 bytes and the key itself otherwise. *)
Theorem hmac_sha1_is_HMAC loc message key :
  fst (hmac_sha1 loc message key)
  = hash (map (fun b => byte_xor b x5c)
            (zero_pad 64 (if (64 <? length key)%nat then hash key else key))
          ++ hash (map (fun b => byte_xor b x36)
                     (zero_pad 64
                        (if (64 <? length key)%nat then hash key else key))
                   ++ message))
  /\ fst (hmac_sha1 loc message key) = HMAC_ref message key
  /\ length (fst (hmac_sha1 loc message key)) = Z.to_nat SHA1_DIGEST_LENGTH.
Proof.
  split; [apply hmac_sha1_digest|].
  split; [apply hmac_sha1_digest|apply hmac_sha1_length].
Qed.

(** C3. On every valid input (rounds >= 1, key length >= 1, a non-empty
    salt that leaves room for the four counter bytes) a derivation whose
    allocation succeeds returns a key of exactly [key_len] bytes.  When
    the driver returns an error, it has left the key buffer as it found
    it and the entry point returns the failure, which carries no key. *)
Theorem derive_key_length pass salt key_len rounds :
  (1 <= rounds -> 1 <= key_len -> salt <> [] ->
   Z.of_nat (length salt) + 4 <= SIZE_MAX ->
   malloc_ok (Z.of_nat (length salt) + 4) = true ->
   exists key, pbkdf2 pass salt key_len rounds = Key key
               /\ Z.of_nat (length key) = key_len)
  /\ (forall rc key' m,
        pkcs5_pbkdf2 pass salt (replicate (Z.to_nat key_len) x00) rounds
        = Returned rc key' m ->
        rc <> 0 ->
        key' = replicate (Z.to_nat key_len) x00
        /\ pbkdf2 pass salt key_len rounds = DerivationFailed).
Proof.
  split.
  - intros Hr Hk Hs Hfit Hm.
    eexists. split.
    + apply pbkdf2_runs with (n := Z.to_nat key_len); try assumption. lia.
    + rewrite length_take, key_stream_length. lia.
  - intros rc key' m Hcall Hrc. unfold pbkdf2. rewrite Hcall.
    destruct (pkcs5_pbkdf2_cases pass salt
                (replicate (Z.to_nat key_len) x00) rounds)
      as [(E & _)|[(E & _)|(E & _)]]; rewrite E in Hcall.
    + injection Hcall as <- <- <-. split; reflexivity.
    + discriminate.
    + injection Hcall as <- _ _. contradiction.
Qed.

(** C4. Prefix stability: for every password, valid salt and rounds, and
    lengths 1 <= K <= L, both derivations succeed when the allocation
    does, and the first K bytes of the key of length L are the key of
    length K. *)
Theorem derive_key_prefix pass salt rounds K L :
  1 <= rounds -> 1 <= K <= L -> salt <> [] ->
  Z.of_nat (length salt) + 4 <= SIZE_MAX ->
  malloc_ok (Z.of_nat (length salt) + 4) = true ->
  exists keyL keyK,
    pbkdf2 pass salt L rounds = Key keyL
    /\ pbkdf2 pass salt K rounds = Key keyK
    /\ take (Z.to_nat K) keyL = keyK.
Proof.
  intros Hr HK Hs Hfit Hm.
  eexists _, _. split; [|split].
  - apply pbkdf2_runs with (n := Z.to_nat L); try assumption; lia.
  - apply pbkdf2_runs with (n := Z.to_nat L); try assumption; lia.
  - rewrite take_take. f_equal. lia.
Qed.

(** C5. For every salt a string can hold and every key length of the
    unsigned type, the derivation fails exactly when rounds < 1, or the key
    length is 0, or the salt is empty, or the salt length leaves no room
    for the four counter bytes, or the allocation fails.  A failing call
    has returned from the driver with the key buffer and the scratch
    memory as they were on entry, so before anything was computed, and
    the entry point never ends in another way than with a key or with
    the one failure outcome. *)
Theorem derivation_fails_iff pass salt key_len rounds :
  Z.of_nat (length salt) <= PTRDIFF_MAX ->
  0 <= key_len ->
  (pbkdf2 pass salt key_len rounds = DerivationFailed
   <-> rounds < 1 \/ key_len = 0 \/ salt = []
       \/ SIZE_MAX < Z.of_nat (length salt) + 4
       \/ malloc_ok (size_t (Z.of_nat (length salt) + 4)) = false)
  /\ (pbkdf2 pass salt key_len rounds = DerivationFailed ->
      pkcs5_pbkdf2 pass salt (replicate (Z.to_nat key_len) x00) rounds
      = Returned (-1) (replicate (Z.to_nat key_len) x00) entry_scratch)
  /\ ((exists key, pbkdf2 pass salt key_len rounds = Key key)
      \/ pbkdf2 pass salt key_len rounds = DerivationFailed).
Proof.
  intros Hsalt Hk.
  assert (Hlen : Z.of_nat (length (replicate (Z.to_nat key_len) x00)) = key_len)
    by (rewrite length_replicate; lia).
  assert (Hnil : Z.of_nat (length salt) = 0 <-> salt = []).
  { destruct salt; cbn; split; intros; try reflexivity; try discriminate; lia. }
  unfold PTRDIFF_MAX, SIZE_MAX in *.
  destruct (pkcs5_pbkdf2_cases pass salt
              (replicate (Z.to_nat key_len) x00) rounds)
    as [(E & Hbad)|[(E & _ & _ & Hbig)|(E & Hok & Hm & _)]];
    unfold SIZE_MAX in *.
  - assert (Hf : pbkdf2 pass salt key_len rounds = DerivationFailed)
      by (unfold pbkdf2; now rewrite E).
    split; [|split].
    + split; [intros _|intros _; exact Hf].
      destruct Hbad as [Hp|Hm]; [|auto 6].
      rewrite Hlen in Hp. apply params_ok_false in Hp. unfold SIZE_MAX in Hp.
      destruct Hp as [|[|[Hz|]]]; auto; [|lia].
      apply Hnil in Hz. auto.
    + intros _. exact E.
    + right. exact Hf.
  - lia.
  - assert (Hf : pbkdf2 pass salt key_len rounds = Key
        (take (length (replicate (Z.to_nat key_len) x00))
           (key_stream pass salt rounds 1
              (length (replicate (Z.to_nat key_len) x00)))))
      by (unfold pbkdf2; now rewrite E).
    rewrite Hlen in Hok. apply params_ok_true in Hok.
    split; [|split].
    + rewrite Hf. split; [discriminate|].
      intros [|[|[Hz|[|Hm']]]]; try lia.
      * apply Hnil in Hz. lia.
      * congruence.
    + rewrite Hf. discriminate.
    + left. eexists. exact Hf.
Qed.

End Derivation.



(** C7, as the claim has it: the digest it quotes has 39 hexadecimal
    digits, so no key of 20 bytes reads that way. *)
Lemma known_answer_39_digits_counterexample :
  ~ exists key,
      @pbkdf2 openssl_sha1 (runtime_filled x00) kat_password kat_salt 20 1
      = Key key
      /\ to_hex key = "0c60c80f961f0e71f3a9b524af6012062fe037a"%string.
Proof.
  intros (key & Hk & Hx). vm_compute in Hk. injection Hk as <-.
  vm_compute in Hx. discriminate Hx.
Qed.

(** C7. Known answer: with SHA-1 for the hash, password "password", salt
    "salt", one round and 20 bytes asked for, a derivation whose
    allocation of 8 bytes succeeds returns the key that reads
    0c60c80f961f0e71f3a9b524af6012062fe037a6, the first vector of
    RFC 6070. *)
Theorem pbkdf2_known_answer (R : Runtime) :
  malloc_ok 8 = true ->
  exists key,
    @pbkdf2 openssl_sha1 R kat_password kat_salt 20 1 = Key key
    /\ to_hex key = "0c60c80f961f0e71f3a9b524af6012062fe037a6"%string.
Proof.
  intros Hm. eexists. split.
  - apply (@pbkdf2_runs openssl_sha1 R) with (n := 1%nat);
      [lia|lia|discriminate|vm_compute; discriminate|exact Hm|lia].
  - vm_compute. reflexivity.
Qed.

Lemma pbkdf2_known_answer_witness :
  exists key,
    @pbkdf2 openssl_sha1 (runtime_filled xff) kat_password kat_salt 20 1
    = Key key
    /\ to_hex key = "0c60c80f961f0e71f3a9b524af6012062fe037a6"%string.
Proof. apply (pbkdf2_known_answer (runtime_filled xff)). reflexivity. Defined.

(** C8. The run that breaks the claim: password "password", salt "salt",
    one round, a key of 20 bytes, on memory that held zeros throughout.
    The call returns 0 with [asalt], [obuf], [d1] and [d2] zeroed, but
    [k_pad] of [hmac_sha1] is not zeroed: xored with 0x5c it reads the
    password, followed by zeros. *)
Theorem hmac_locals_survive_call :
  exists key m,
    @pkcs5_pbkdf2 openssl_sha1 (runtime_filled x00) kat_password kat_salt
      (replicate 20 x00) 1 = Returned 0 key m
    /\ all_zero (sc_asalt m) /\ all_zero (sc_obuf m)
    /\ all_zero (sc_d1 m) /\ all_zero (sc_d2 m)
    /\ ~ all_zero (hl_k_pad (sc_hmac m))
    /\ ~ scrubbed m
    /\ map (fun b => byte_xor b x5c) (hl_k_pad (sc_hmac m))
       = kat_password ++ replicate 56 x00.
Proof.
  eexists _, _. split.
  - apply (@pkcs5_pbkdf2_runs openssl_sha1 (runtime_filled x00))
      with (n := 1%nat);
      [reflexivity|vm_compute; discriminate|reflexivity|cbn; lia].
  - assert (Hk : ~ all_zero (hl_k_pad (sc_hmac
                     (@scratch_after openssl_sha1 (runtime_filled x00)
                        kat_password kat_salt)))).
    { intros Hk. apply all_zerob_spec in Hk. vm_compute in Hk.
      discriminate Hk. }
    split; [apply all_zerob_spec; vm_compute; reflexivity|].
    split; [apply all_zerob_spec; vm_compute; reflexivity|].
    split; [apply all_zerob_spec; vm_compute; reflexivity|].
    split; [apply all_zerob_spec; vm_compute; reflexivity|].
    split; [exact Hk|].
    split; [intros (_ & _ & _ & _ & Hs); exact (Hk Hs)|].
    vm_compute. reflexivity.
Qed.

Section MemoryAndLoop.

Context {H : Hash} {R : Runtime}.

(** C9. An empty password is accepted: for every non-empty salt that
    leaves room for the counter, key length >= 1 and rounds >= 1, the
    derivation with the password of length 0 returns, when its
    allocation succeeds, a key of exactly [key_len] bytes. *)
Theorem empty_password_accepted salt key_len rounds :
  salt <> [] ->
  Z.of_nat (length salt) + 4 <= SIZE_MAX ->
  1 <= key_len -> 1 <= rounds ->
  malloc_ok (Z.of_nat (length salt) + 4) = true ->
  exists key, pbkdf2 [] salt key_len rounds = Key key
              /\ Z.of_nat (length key) = key_len.
Proof.
  intros Hs Hfit Hk Hr Hm. eexists. split.
  - apply pbkdf2_runs with (n := Z.to_nat key_len); try assumption. lia.
  - rewrite length_take, key_stream_length. lia.
Qed.

(** C10. The block loop ends.  While some length is left, a pass writes
    min(left, 20) >= 1 bytes and leaves that much less, never below zero;
    so the loop, defined by well-founded recursion on the length left, is
    the body run once for each 20-byte block that covers the length, and
    it stops with nothing left. *)
Theorem block_loop_terminates pass salt_len rounds st :
  0 <= ls_key_len st ->
  (0 < ls_key_len st ->
   1 <= Z.min (ls_key_len st) SHA1_DIGEST_LENGTH
   /\ ls_key_len (block_body pass salt_len rounds st)
      = ls_key_len st - Z.min (ls_key_len st) SHA1_DIGEST_LENGTH
   /\ 0 <= ls_key_len (block_body pass salt_len rounds st) < ls_key_len st)
  /\ block_loop pass salt_len rounds st
     = Nat.iter (Z.to_nat ((ls_key_len st + 19) / 20))
         (block_body pass salt_len rounds) st
  /\ ls_key_len (block_loop pass salt_len rounds st) = 0.
Proof.
  intros Hk. split; [|split].
  - intros Hpos. rewrite block_body_key_len. unfold SHA1_DIGEST_LENGTH. lia.
  - now apply block_loop_iter.
  - apply block_loop_done with (n := Z.to_nat (ls_key_len st)). lia.
Qed.

End MemoryAndLoop.
(** ** The theorems at concrete inputs

    SHA-1 for the hash, a run time whose allocations succeed and whose
    fresh memory holds 0xff, and the inputs of RFC 6070. *)

Lemma pbkdf2_is_reference_witness :
  @pbkdf2 openssl_sha1 (runtime_filled xff) kat_password kat_salt 25 2
  = Key (@PBKDF2_ref openssl_sha1 kat_password kat_salt 2 25).
Proof.
  apply (@pbkdf2_is_reference openssl_sha1 (runtime_filled xff)).
  - discriminate.
  - vm_compute. discriminate.
  - unfold UINT_MAX. lia.
  - lia.
  - reflexivity.
Defined.

Lemma derive_key_length_witness :
  (exists key,
     @pbkdf2 openssl_sha1 (runtime_filled xff) kat_password kat_salt 45 3
     = Key key
     /\ Z.of_nat (length key) = 45)
  /\ @pbkdf2 openssl_sha1 (runtime_filled xff) kat_password kat_salt 45 0
     = DerivationFailed.
Proof.
  split.
  - apply (proj1 (@derive_key_length openssl_sha1 (runtime_filled xff)
                    kat_password kat_salt 45 3)).
    + lia.
    + lia.
    + discriminate.
    + vm_compute. discriminate.
    + reflexivity.
  - apply (proj2 (@derive_key_length openssl_sha1 (runtime_filled xff)
                    kat_password kat_salt 45 0)
             (-1) (replicate (Z.to_nat 45) x00)
             (@entry_scratch (runtime_filled xff))).
    + reflexivity.
    + lia.
Defined.

Lemma derive_key_prefix_witness :
  exists keyL keyK,
    @pbkdf2 openssl_sha1 (runtime_filled xff) kat_password kat_salt 30 1
    = Key keyL
    /\ @pbkdf2 openssl_sha1 (runtime_filled xff) kat_password kat_salt 10 1
       = Key keyK
    /\ take (Z.to_nat 10) keyL = keyK.
Proof.
  apply (@derive_key_prefix openssl_sha1 (runtime_filled xff)).
  - lia.
  - lia.
  - discriminate.
  - vm_compute. discriminate.
  - reflexivity.
Defined.

Lemma derivation_fails_iff_witness :
  @pbkdf2 openssl_sha1 runtime_oom kat_password kat_salt 20 1
  = DerivationFailed.
Proof.
  apply (proj1 (@derivation_fails_iff openssl_sha1 runtime_oom
                  kat_password kat_salt 20 1
                  ltac:(vm_compute; discriminate) ltac:(lia))).
  right. right. right. right. reflexivity.
Defined.

Lemma empty_password_accepted_witness :
  exists key,
    @pbkdf2 openssl_sha1 (runtime_filled xff) [] kat_salt 20 1 = Key key
    /\ Z.of_nat (length key) = 20.
Proof.
  apply (@empty_password_accepted openssl_sha1 (runtime_filled xff)).
  - discriminate.
  - vm_compute. discriminate.
  - lia.
  - lia.
  - reflexivity.
Defined.

Lemma block_loop_terminates_witness :
  @block_loop openssl_sha1 kat_password 4 2 kat_state
  = Nat.iter 3 (@block_body openssl_sha1 kat_password 4 2) kat_state
  /\ ls_key_len (@block_loop openssl_sha1 kat_password 4 2 kat_state) = 0.
Proof.
  apply (@block_loop_terminates openssl_sha1 kat_password 4 2 kat_state).
  cbn. lia.
Defined.

(** * Further properties of the code *)

(** ** Keys that [hmac_sha1] cannot tell apart *)

Section KeyClasses.

Context {H : Hash}.

Lemma HMAC_ref_zero_tail text key n :
  (length key + n <= 64)%nat ->
  HMAC_ref text (key ++ replicate n x00) = HMAC_ref text key.
Proof.
  intros Hn.
  assert (Hpad : zero_pad 64 (effective_key (key ++ replicate n x00))
                 = zero_pad 64 (effective_key key)).
  { unfold effective_key, zero_pad.
    rewrite length_app, length_replicate.
    destruct (Nat.ltb_spec 64 (length key + n)); [lia|].
    destruct (Nat.ltb_spec 64 (length key)); [lia|].
    rewrite <- app_assoc, <- replicate_add. do 2 f_equal.
    rewrite length_app, length_replicate. lia. }
  unfold HMAC_ref, inner_pad, outer_pad. now rewrite Hpad.
Qed.

Lemma HMAC_ref_long_key text key :
  (64 < length key)%nat ->
  HMAC_ref text key = HMAC_ref text (hash key).
Proof.
  intros Hk.
  assert (Heff : effective_key key = effective_key (hash key)).
  { unfold effective_key. rewrite hash_length_20.
    destruct (Nat.ltb_spec 64 (length key)); [|lia].
    destruct (Nat.ltb_spec 64 20); [lia|reflexivity]. }
  unfold HMAC_ref, inner_pad, outer_pad. now rewrite Heff.
Qed.

(** Passwords with the same HMAC give the same blocks. *)
Lemma U_same_hmac pass1 pass2 salt i j :
  (forall text, HMAC_ref text pass1 = HMAC_ref text pass2) ->
  U pass1 salt i j = U pass2 salt i j.
Proof.
  intros Hh. induction j as [|j IH]; cbn [U]; [reflexivity|].
  now rewrite IH, Hh.
Qed.

Lemma T_same_hmac pass1 pass2 salt c i :
  (forall text, HMAC_ref text pass1 = HMAC_ref text pass2) ->
  T pass1 salt c i = T pass2 salt c i.
Proof.
  intros Hh. unfold T.
  rewrite (U_same_hmac pass1 pass2 salt i 1 Hh). f_equal.
  apply map_ext. intros j. now apply U_same_hmac.
Qed.

Lemma key_stream_same_hmac pass1 pass2 salt rounds n : forall count,
  (forall text, HMAC_ref text pass1 = HMAC_ref text pass2) ->
  key_stream pass1 salt rounds count n = key_stream pass2 salt rounds count n.
Proof.
  induction n as [|n IH]; intros count Hh; cbn [key_stream]; [reflexivity|].
  now rewrite IH, (T_same_hmac pass1 pass2) by exact Hh.
Qed.

(** X1. A key of at most 64 bytes and the same key followed by zero
    bytes, up to 64 bytes in all, give the same digest for every
    message: [k_pad] is cleared before the key is copied in. *)
Theorem hmac_sha1_zero_tail loc loc' text key n :
  (length key + n <= 64)%nat ->
  fst (hmac_sha1 loc text (key ++ replicate n x00))
  = fst (hmac_sha1 loc' text key).
Proof.
  intros Hn. rewrite !hmac_sha1_digest. now apply HMAC_ref_zero_tail.
Qed.

(** X2. A key longer than 64 bytes and its hash, used as a key of 20
    bytes, give the same digest for every message. *)
Theorem hmac_sha1_long_key loc loc' text key :
  (64 < length key)%nat ->
  fst (hmac_sha1 loc text key) = fst (hmac_sha1 loc' text (hash key)).
Proof.
  intros Hk. rewrite !hmac_sha1_digest. now apply HMAC_ref_long_key.
Qed.

End KeyClasses.

(** ** The entry point in closed form *)

Section ClosedForm.

Context {H : Hash}.

(** What [pbkdf2] returns, for every input and run time. *)
Lemma pbkdf2_closed_form (R : Runtime) pass salt key_len rounds :
  let salt_len := Z.of_nat (length salt) in
  @pbkdf2 H R pass salt key_len rounds
  = if negb (params_ok salt_len (Z.of_nat (Z.to_nat key_len)) rounds)
       || negb (malloc_ok (size_t (salt_len + 4)))
    then DerivationFailed
    else if SIZE_MAX - 4 <? salt_len then Undefined
    else Key (take (Z.to_nat key_len)
                (key_stream pass salt rounds 1 (Z.to_nat key_len))).
Proof.
  cbn zeta. unfold pbkdf2.
  destruct (pkcs5_pbkdf2_cases pass salt
              (replicate (Z.to_nat key_len) x00) rounds)
    as [(E & Hbad)|[(E & Hok & Hm & Hbig)|(E & Hok & Hm & Hfit)]];
    rewrite E; rewrite length_replicate in *.
  - destruct Hbad as [-> | ->]; [reflexivity|].
    now rewrite orb_true_r.
  - rewrite Hok, Hm. cbn.
    destruct (Z.ltb_spec (SIZE_MAX - 4) (Z.of_nat (length salt)));
      [reflexivity|lia].
  - rewrite Hok, Hm. cbn.
    destruct (Z.ltb_spec (SIZE_MAX - 4) (Z.of_nat (length salt)));
      [lia|reflexivity].
Qed.

Lemma pbkdf2_same_hmac (R : Runtime) pass1 pass2 salt key_len rounds :
  (forall text, HMAC_ref text pass1 = HMAC_ref text pass2) ->
  @pbkdf2 H R pass1 salt key_len rounds = @pbkdf2 H R pass2 salt key_len rounds.
Proof.
  intros Hh. rewrite !pbkdf2_closed_form. cbn zeta.
  now rewrite (key_stream_same_hmac pass1 pass2) by exact Hh.
Qed.

(** X3. Two passwords that differ by zero bytes at the end, both of at
    most 64 bytes, derive alike: the same key, or the same failure, for
    every salt, key length and number of rounds. *)
Theorem pbkdf2_zero_tail_password (R : Runtime) pass n salt key_len rounds :
  (length pass + n <= 64)%nat ->
  @pbkdf2 H R (pass ++ replicate n x00) salt key_len rounds
  = @pbkdf2 H R pass salt key_len rounds.
Proof.
  intros Hn. apply pbkdf2_same_hmac. intros text.
  now apply HMAC_ref_zero_tail.
Qed.

(** X4. A password longer than 64 bytes and its 20-byte hash derive
    alike, for every salt, key length and number of rounds. *)
Theorem pbkdf2_long_password (R : Runtime) pass salt key_len rounds :
  (64 < length pass)%nat ->
  @pbkdf2 H R pass salt key_len rounds
  = @pbkdf2 H R (hash pass) salt key_len rounds.
Proof.
  intros Hk. apply pbkdf2_same_hmac. intros text.
  now apply HMAC_ref_long_key.
Qed.

(** X5. The outcome of a derivation depends on the run time only through
    whether the allocation succeeds: what the uninitialised arrays and
    the fresh block hold never reaches the key. *)
Theorem pbkdf2_ignores_uninitialised (R1 R2 : Runtime) pass salt key_len rounds :
  @malloc_ok R1 (size_t (Z.of_nat (length salt) + 4))
  = @malloc_ok R2 (size_t (Z.of_nat (length salt) + 4)) ->
  @pbkdf2 H R1 pass salt key_len rounds = @pbkdf2 H R2 pass salt key_len rounds.
Proof.
  intros Hm. rewrite !pbkdf2_closed_form. cbn zeta. now rewrite Hm.
Qed.

(** X6. A successful call overwrites the whole key buffer: called on
    another buffer of the same length it returns the same key and leaves
    the same scratch memory, whatever either buffer held. *)
Theorem pkcs5_pbkdf2_overwrites_key (R : Runtime) pass salt key1 key2 rounds key m :
  length key1 = length key2 ->
  @pkcs5_pbkdf2 H R pass salt key1 rounds = Returned 0 key m ->
  @pkcs5_pbkdf2 H R pass salt key2 rounds = Returned 0 key m
  /\ length key = length key1.
Proof.
  intros Hlen Hcall.
  destruct (pkcs5_pbkdf2_cases pass salt key1 rounds)
    as [(E & _)|[(E & _)|(E & Hok & Hm & Hfit)]]; rewrite E in Hcall;
    try discriminate.
  injection Hcall as <- <-.
  split.
  - destruct (pkcs5_pbkdf2_cases pass salt key2 rounds)
      as [(E2 & Hbad)|[(E2 & _ & _ & Hbig)|(E2 & _)]].
    + rewrite <- Hlen in Hbad. destruct Hbad; congruence.
    + lia.
    + rewrite E2, <- Hlen. reflexivity.
  - rewrite length_take, key_stream_length. lia.
Qed.

End ClosedForm.

(** ** Bytes and the counter *)

Lemma Z_of_byte_u8 z : Z_of_byte (u8 z) = z mod 256.
Proof.
  unfold u8, Z_of_byte.
  assert (Hr : 0 <= z mod 256 < 256) by (apply Z.mod_pos_bound; lia).
  destruct (Byte.of_N (Z.to_N (z mod 256))) as [b|] eqn:E.
  - apply Byte.to_of_N in E. rewrite E. apply Z2N.id. lia.
  - apply Byte.of_N_None_iff in E. lia.
Qed.

Lemma byte_xor_5c_twice b : byte_xor (byte_xor b x5c) x5c = b.
Proof. destruct b; reflexivity. Qed.

Lemma INT_decode i :
  0 <= i <= UINT_MAX ->
  Z_of_byte (u8 (i / 2 ^ 24)) * 2 ^ 24 + Z_of_byte (u8 (i / 2 ^ 16)) * 2 ^ 16
  + Z_of_byte (u8 (i / 2 ^ 8)) * 2 ^ 8 + Z_of_byte (u8 i) = i.
Proof.
  intros Hi. unfold UINT_MAX in Hi. rewrite !Z_of_byte_u8.
  change (2 ^ 24) with 16777216. change (2 ^ 16) with 65536.
  change (2 ^ 8) with 256.
  Z.div_mod_to_equations. lia.
Qed.

Section Passes.

Context {H : Hash}.

#[local] Arguments U : simpl never.

Lemma block_body_asalt pass salt rounds st :
  mem_inv salt (ls_mem st) ->
  sc_asalt (ls_mem (block_body pass (Z.of_nat (length salt)) rounds st))
  = salt ++ INT (ls_count st).
Proof.
  intros ((ctr & Ha & Hc) & Lo & L1 & L2 & Lk).
  unfold block_body. rewrite Ha.
  rewrite (store_counter salt ctr) by exact Hc.
  rewrite count_bytes_INT.
  rewrite take_ge by (rewrite length_app; cbn; lia).
  rewrite hmac_sha1_eq by exact Lk.
  change (Z.to_nat SHA1_DIGEST_LENGTH) with 20%nat.
  rewrite memcpy_all by (rewrite ?HMAC_ref_length; lia).
  change (HMAC_ref (salt ++ INT (ls_count st)) pass)
    with (U pass salt (ls_count st) 1).
  unfold rounds_loop. cbn [ls_mem].
  match goal with |- context [Nat.iter ?n ?f ?m] =>
    destruct (round_iter pass salt (ls_count st) n m) as (_ & Hs & _)
  end.
  - repeat split; cbn; try assumption; try apply U_length.
    + exists (INT (ls_count st)). split; reflexivity.
    + apply outer_pad_length.
  - reflexivity.
  - reflexivity.
  - cbn zeta in Hs. rewrite Hs. reflexivity.
Qed.

(** X8. A pass of the block loop leaves the salt at the head of [asalt]
    and stores the counter behind it most significant byte first: the
    four bytes read back as [count], for every value of a [u_int]. *)
Theorem block_counter_big_endian pass salt rounds st :
  mem_inv salt (ls_mem st) ->
  0 <= ls_count st <= UINT_MAX ->
  exists b0 b1 b2 b3,
    sc_asalt (ls_mem (block_body pass (Z.of_nat (length salt)) rounds st))
    = salt ++ [b0; b1; b2; b3]
    /\ Z_of_byte b0 * 2 ^ 24 + Z_of_byte b1 * 2 ^ 16
       + Z_of_byte b2 * 2 ^ 8 + Z_of_byte b3 = ls_count st.
Proof.
  intros Hinv Hc. rewrite block_body_asalt by exact Hinv.
  eexists _, _, _, _. split; [reflexivity|]. now apply INT_decode.
Qed.

(** The state of the key buffer after a pass, given its state before. *)
Lemma block_body_frame pass salt rounds st :
  mem_inv salt (ls_mem st) ->
  0 <= ls_off st -> 0 <= ls_key_len st ->
  Z.of_nat (length (ls_key st)) = ls_off st + ls_key_len st ->
  let st' := block_body pass (Z.of_nat (length salt)) rounds st in
  mem_inv salt (ls_mem st')
  /\ ls_off st <= ls_off st' /\ 0 <= ls_key_len st'
  /\ Z.of_nat (length (ls_key st')) = ls_off st' + ls_key_len st'
  /\ length (ls_key st') = length (ls_key st)
  /\ take (Z.to_nat (ls_off st)) (ls_key st')
     = take (Z.to_nat (ls_off st)) (ls_key st)
  /\ drop (Z.to_nat (ls_off st')) (ls_key st')
     = drop (Z.to_nat (ls_off st')) (ls_key st).
Proof.
  intros Hinv Hoff Hlen Hkey. cbn zeta.
  destruct (block_body_spec pass salt rounds st Hinv)
    as (Hinv' & _ & Hk & Ho & Hl).
  set (st' := block_body pass (Z.of_nat (length salt)) rounds st) in *.
  set (blk := T pass salt (Z.to_nat rounds) (ls_count st)) in *.
  assert (Hblk : length blk = 20%nat) by apply T_length.
  set (r := Z.min (ls_key_len st) 20) in *.
  assert (Hk1 : length (ls_key st') = length (ls_key st)).
  { rewrite Hk. apply length_memcpy_at; lia. }
  split; [exact Hinv'|]. split; [lia|]. split; [lia|]. split; [lia|].
  split; [exact Hk1|]. rewrite Hk, Ho. unfold memcpy_at. split.
  - apply take_app_length'. rewrite length_take. lia.
  - rewrite app_assoc. 
    replace (Z.to_nat (ls_off st + r))
      with (Z.to_nat (ls_off st) + Z.to_nat r)%nat by lia.
    apply drop_app_length'.
    rewrite length_app, !length_take. lia.
Qed.

(** X9. The passes of the block loop stay inside the caller's buffer:
    after any number of them the cursor and the length left still add up
    to the length of the buffer, which has not changed; the bytes before
    the first cursor position and the bytes from the present cursor on
    are as they were. *)
Theorem block_passes_frame pass salt rounds st n :
  mem_inv salt (ls_mem st) ->
  0 <= ls_off st -> 0 <= ls_key_len st ->
  Z.of_nat (length (ls_key st)) = ls_off st + ls_key_len st ->
  Z.of_nat n <= (ls_key_len st + 19) / 20 ->
  let stn := Nat.iter n (block_body pass (Z.of_nat (length salt)) rounds) st in
  ls_off st <= ls_off stn /\ 0 <= ls_key_len stn
  /\ Z.of_nat (length (ls_key stn)) = ls_off stn + ls_key_len stn
  /\ length (ls_key stn) = length (ls_key st)
  /\ take (Z.to_nat (ls_off st)) (ls_key stn)
     = take (Z.to_nat (ls_off st)) (ls_key st)
  /\ drop (Z.to_nat (ls_off stn)) (ls_key stn)
     = drop (Z.to_nat (ls_off stn)) (ls_key st).
Proof.
  intros Hinv Hoff Hlen Hkey _. cbn zeta.
  assert (Hgen : mem_inv salt
            (ls_mem (Nat.iter n (block_body pass (Z.of_nat (length salt)) rounds) st))
          /\ let stn := Nat.iter n (block_body pass (Z.of_nat (length salt)) rounds) st in
             ls_off st <= ls_off stn /\ 0 <= ls_key_len stn
             /\ Z.of_nat (length (ls_key stn)) = ls_off stn + ls_key_len stn
             /\ length (ls_key stn) = length (ls_key st)
             /\ take (Z.to_nat (ls_off st)) (ls_key stn)
                = take (Z.to_nat (ls_off st)) (ls_key st)
             /\ drop (Z.to_nat (ls_off stn)) (ls_key stn)
                = drop (Z.to_nat (ls_off stn)) (ls_key st)).
  { induction n as [|n IH]; cbn zeta.
    - cbn. split; [exact Hinv|]. repeat split; try reflexivity; lia.
    - rewrite Nat.iter_succ. cbn zeta in IH.
      destruct IH as (Hi & Ho & Hl & Hk & Hn & Ht & Hd).
      set (stn := Nat.iter n _ st) in *.
      destruct (block_body_frame pass salt rounds stn Hi)
        as (Hi' & Ho' & Hl' & Hk' & Hn' & Ht' & Hd'); try lia.
      set (st' := block_body pass (Z.of_nat (length salt)) rounds stn) in *.
      split; [exact Hi'|]. split; [lia|]. split; [lia|]. split; [lia|].
      split; [congruence|]. split.
      + rewrite <- Ht.
        replace (Z.to_nat (ls_off st))
          with (Z.to_nat (ls_off st) `min` Z.to_nat (ls_off stn))%nat by lia.
        rewrite <- !take_take. now rewrite Ht'.
      + rewrite Hd'.
        replace (Z.to_nat (ls_off st'))
          with (Z.to_nat (ls_off stn)
                + (Z.to_nat (ls_off st') - Z.to_nat (ls_off stn)))%nat by lia.
        rewrite <- !drop_drop. now rewrite Hd. }
  apply Hgen.
Qed.

End Passes.

Section Rounds.

Context {H : Hash}.

#[local] Arguments U : simpl never.

Lemma T_succ pass salt c i :
  (1 <= c)%nat ->
  T pass salt (S c) i = xor_bytes (T pass salt c i) (U pass salt i (S c)).
Proof.
  intros Hc. unfold T.
  replace (S c - 1)%nat with (S (c - 1)) by lia.
  rewrite seq_S, map_app, foldl_app. cbn [map foldl].
  now replace (2 + (c - 1))%nat with (S c) by lia.
Qed.

(** X10. One more round xors one more link of the HMAC chain onto the
    key: for a key of at most one block, the key derived with
    [rounds + 1] rounds is the key derived with [rounds] rounds xored
    with U_(rounds+1) of block 1. *)
Theorem pbkdf2_one_more_round (R : Runtime) pass salt key_len rounds :
  salt <> [] ->
  Z.of_nat (length salt) + 4 <= SIZE_MAX ->
  1 <= key_len <= SHA1_DIGEST_LENGTH ->
  1 <= rounds ->
  malloc_ok (Z.of_nat (length salt) + 4) = true ->
  exists key,
    @pbkdf2 H R pass salt key_len rounds = Key key
    /\ @pbkdf2 H R pass salt key_len (rounds + 1)
       = Key (xor_bytes key (U pass salt 1 (Z.to_nat (rounds + 1)))).
Proof.
  intros Hs Hfit Hk Hr Hm. unfold SHA1_DIGEST_LENGTH in Hk.
  eexists. split.
  - apply pbkdf2_runs with (n := 1%nat); try assumption; lia.
  - rewrite (pbkdf2_runs pass salt key_len (rounds + 1) 1)
      by (try assumption; lia).
    f_equal. cbn [key_stream]. rewrite !app_nil_r.
    replace (Z.to_nat (rounds + 1)) with (S (Z.to_nat rounds)) by lia.
    rewrite T_succ by lia. unfold xor_bytes.
    rewrite zip_with_take. apply zip_with_take_r'.
    rewrite length_take, T_length. lia.
Qed.

(** X11. For a key of at most 64 bytes, [k_pad] as [hmac_sha1] leaves it
    gives the key back: xored with 0x5c byte by byte it is the key
    followed by zeros up to 64 bytes. *)
Theorem hmac_sha1_k_pad_holds_key loc text key :
  length (hl_k_pad loc) = 64%nat ->
  (length key <= 64)%nat ->
  map (fun b => byte_xor b x5c) (hl_k_pad (snd (hmac_sha1 loc text key)))
  = key ++ replicate (64 - length key) x00.
Proof.
  intros Hp Hk. rewrite hmac_sha1_locals by exact Hp. cbn [hl_k_pad].
  unfold outer_pad, effective_key.
  destruct (Nat.ltb_spec 64 (length key)); [lia|].
  rewrite map_map. unfold zero_pad.
  rewrite <- (map_id (key ++ _)) at 2.
  apply map_ext. intros b. apply byte_xor_5c_twice.
Qed.

End Rounds.

(** ** The further properties at concrete inputs *)

Lemma pkcs5_pbkdf2_overwrites_key_witness :
  @pkcs5_pbkdf2 openssl_sha1 (runtime_filled xff) kat_password kat_salt
    (replicate 20 xaa) 1
  = Returned 0 (take 20 (@key_stream openssl_sha1 kat_password kat_salt 1 1 1))
      (@scratch_after openssl_sha1 (runtime_filled xff) kat_password kat_salt)
  /\ length (take 20 (@key_stream openssl_sha1 kat_password kat_salt 1 1 1))
     = length (replicate 20 x00).
Proof.
  apply (@pkcs5_pbkdf2_overwrites_key openssl_sha1 (runtime_filled xff)
           kat_password kat_salt (replicate 20 x00) (replicate 20 xaa) 1).
  - reflexivity.
  - vm_compute. reflexivity.
Defined.

Lemma pbkdf2_ignores_uninitialised_witness :
  @pbkdf2 openssl_sha1 (runtime_filled x00) kat_password kat_salt 30 2
  = @pbkdf2 openssl_sha1 (runtime_filled xff) kat_password kat_salt 30 2.
Proof.
  apply (@pbkdf2_ignores_uninitialised openssl_sha1
           (runtime_filled x00) (runtime_filled xff)).
  reflexivity.
Defined.

Lemma hmac_sha1_zero_tail_witness :
  fst (@hmac_sha1 openssl_sha1
         {| hl_k_pad := replicate 64 xff; hl_tk := replicate 20 xff |}
         kat_salt (kat_password ++ replicate 3 x00))
  = fst (@hmac_sha1 openssl_sha1
           {| hl_k_pad := replicate 64 x00; hl_tk := replicate 20 x00 |}
           kat_salt kat_password).
Proof.
  apply (@hmac_sha1_zero_tail openssl_sha1). cbn. lia.
Defined.

Lemma hmac_sha1_long_key_witness :
  fst (@hmac_sha1 openssl_sha1
         {| hl_k_pad := replicate 64 xff; hl_tk := replicate 20 xff |}
         kat_salt (replicate 80 xaa))
  = fst (@hmac_sha1 openssl_sha1
           {| hl_k_pad := replicate 64 x00; hl_tk := replicate 20 x00 |}
           kat_salt (@hash openssl_sha1 (replicate 80 xaa))).
Proof.
  apply (@hmac_sha1_long_key openssl_sha1). cbn. lia.
Defined.

Lemma pbkdf2_zero_tail_password_witness :
  @pbkdf2 openssl_sha1 (runtime_filled xff)
    (kat_password ++ replicate 3 x00) kat_salt 20 1
  = @pbkdf2 openssl_sha1 (runtime_filled xff) kat_password kat_salt 20 1.
Proof.
  apply (@pbkdf2_zero_tail_password openssl_sha1). cbn. lia.
Defined.

Lemma pbkdf2_long_password_witness :
  @pbkdf2 openssl_sha1 (runtime_filled xff) (replicate 80 xaa) kat_salt 20 1
  = @pbkdf2 openssl_sha1 (runtime_filled xff)
      (@hash openssl_sha1 (replicate 80 xaa)) kat_salt 20 1.
Proof.
  apply (@pbkdf2_long_password openssl_sha1). cbn. lia.
Defined.

Lemma kat_state_mem_inv : mem_inv kat_salt (ls_mem kat_state).
Proof.
  split; [exists (replicate 4 xff); split; reflexivity|].
  repeat split; reflexivity.
Defined.

Lemma block_counter_big_endian_witness :
  exists b0 b1 b2 b3,
    sc_asalt (ls_mem (@block_body openssl_sha1 kat_password
                        (Z.of_nat (length kat_salt)) 2 kat_state))
    = kat_salt ++ [b0; b1; b2; b3]
    /\ Z_of_byte b0 * 2 ^ 24 + Z_of_byte b1 * 2 ^ 16
       + Z_of_byte b2 * 2 ^ 8 + Z_of_byte b3 = ls_count kat_state.
Proof.
  apply (@block_counter_big_endian openssl_sha1 kat_password kat_salt 2
           kat_state kat_state_mem_inv).
  vm_compute. split; discriminate.
Defined.

Lemma block_passes_frame_witness :
  let stn := Nat.iter 2 (@block_body openssl_sha1 kat_password
                           (Z.of_nat (length kat_salt)) 2) kat_state in
  ls_off kat_state <= ls_off stn /\ 0 <= ls_key_len stn
  /\ Z.of_nat (length (ls_key stn)) = ls_off stn + ls_key_len stn
  /\ length (ls_key stn) = length (ls_key kat_state)
  /\ take (Z.to_nat (ls_off kat_state)) (ls_key stn)
     = take (Z.to_nat (ls_off kat_state)) (ls_key kat_state)
  /\ drop (Z.to_nat (ls_off stn)) (ls_key stn)
     = drop (Z.to_nat (ls_off stn)) (ls_key kat_state).
Proof.
  apply (@block_passes_frame openssl_sha1 kat_password kat_salt 2 kat_state 2
           kat_state_mem_inv).
  - cbn. lia.
  - cbn. lia.
  - reflexivity.
  - vm_compute. discriminate.
Defined.

Lemma pbkdf2_one_more_round_witness :
  exists key,
    @pbkdf2 openssl_sha1 (runtime_filled xff) kat_password kat_salt 20 1
    = Key key
    /\ @pbkdf2 openssl_sha1 (runtime_filled xff) kat_password kat_salt 20 (1 + 1)
       = Key (xor_bytes key
                (@U openssl_sha1 kat_password kat_salt 1 (Z.to_nat (1 + 1)))).
Proof.
  apply (@pbkdf2_one_more_round openssl_sha1 (runtime_filled xff)).
  - discriminate.
  - vm_compute. discriminate.
  - unfold SHA1_DIGEST_LENGTH. lia.
  - lia.
  - reflexivity.
Defined.

Lemma hmac_sha1_k_pad_holds_key_witness :
  map (fun b => byte_xor b x5c)
    (hl_k_pad (snd (@hmac_sha1 openssl_sha1
                      {| hl_k_pad := replicate 64 xff;
                         hl_tk := replicate 20 xff |}
                      kat_salt kat_password)))
  = kat_password ++ replicate (64 - length kat_password) x00.
Proof.
  apply (@hmac_sha1_k_pad_holds_key openssl_sha1).
  - reflexivity.
  - cbn. lia.
Defined.

(** ** The scratch memory of the driver *)

(** X12. What a call that returns has done to the memory of the driver.
    After a return of 0 the block [asalt], of salt length + 4 bytes, and
    the arrays [obuf], [d1] and [d2] hold zeros only.  Any other return
    is -1, and then nothing was allocated or written: the scratch memory
    and the caller's key buffer are as on entry. *)
Theorem driver_scrubs_own_buffers {H : Hash} {R : Runtime}
    pass salt key rounds rc key' m :
  pkcs5_pbkdf2 pass salt key rounds = Returned rc key' m ->
  (rc = 0
   /\ sc_asalt m = replicate (length salt + 4) x00
   /\ sc_obuf m = replicate 20 x00
   /\ sc_d1 m = replicate 20 x00
   /\ sc_d2 m = replicate 20 x00)
  \/ (rc = -1 /\ m = entry_scratch /\ key' = key).
Proof.
  intros Hcall.
  destruct (pkcs5_pbkdf2_cases pass salt key rounds)
    as [(E & _)|[(E & _)|(E & _)]]; rewrite E in Hcall.
  - injection Hcall as <- <- <-. right. auto.
  - discriminate.
  - injection Hcall as <- _ <-. left. repeat split.
Qed.

Lemma driver_scrubs_own_buffers_witness :
  (sc_asalt (@scratch_after openssl_sha1 (runtime_filled xff)
               kat_password kat_salt) = replicate 8 x00
   /\ sc_d1 (@scratch_after openssl_sha1 (runtime_filled xff)
               kat_password kat_salt) = replicate 20 x00)
  /\ @entry_scratch (runtime_filled xff) = @entry_scratch (runtime_filled xff).
Proof.
  split.
  - destruct (@driver_scrubs_own_buffers openssl_sha1 (runtime_filled xff)
                kat_password kat_salt (replicate 20 xaa) 1 0
                (take 20 (@key_stream openssl_sha1 kat_password kat_salt 1 1 1))
                (@scratch_after openssl_sha1 (runtime_filled xff)
                   kat_password kat_salt))
      as [(_ & Ha & _ & Hd1 & _)|(Hrc & _)].
    + vm_compute. reflexivity.
    + split; [exact Ha|exact Hd1].
    + discriminate Hrc.
  - destruct (@driver_scrubs_own_buffers openssl_sha1 (runtime_filled xff)
                kat_password kat_salt (replicate 20 xaa) 0 (-1)
                (replicate 20 xaa) (@entry_scratch (runtime_filled xff)))
      as [(Hrc & _)|(_ & Hm & _)].
    + reflexivity.
    + discriminate Hrc.
    + exact Hm.
Defined.
